(** * max-random-baseline: the maximum order statistic of a Poisson binomial

    A shallow embedding of [max_random_baseline/max_random_baseline.py].

    Numbers.  Python integers are [Z].  Python floats are modelled as exact
    rationals [Q]: every statement below is about the formulas the code
    evaluates, with rounding left out, except where a computed float decides
    a branch: the argument [self.n * acc - 1] that [p_value] hands to
    [math.floor] is rounded to double precision ([round_double]), operation
    by operation.  Doubles are finite here: a result beyond the largest
    double, where Python carries [inf] and [math.floor] raises, is outside
    the model.  Equality of computed numbers is [Qeq] ([==]) unless both
    sides are the very same expression.

    Exceptions.  A call either returns a value or raises; [result] is the
    error monad, [Raise] carries which exception.

    The class [PoiBin] ([max_random_baseline/poibin/poibin.py]) is an
    external collaborator.  The engine is written against its interface
    ([PoiBin.obj]), and every theorem quantifies over all its
    implementations, the ones that raise on some inputs included. *)

From Stdlib Require Import ZArith QArith Qround Qpower List Lia Bool.
From Stdlib Require Import Permutation Lqa.
Import ListNotations.

Local Open Scope Z_scope.

(** ** Exceptions *)

Inductive exn : Type :=
| AssertionError
| ZeroDivisionError
| SystemExit
| PoiBinError.

Inductive result (A : Type) : Type :=
| Ok (a : A)
| Raise (e : exn).

Arguments Ok {A} a.
Arguments Raise {A} e.

Definition bind {A B : Type} (c : result A) (k : A -> result B) : result B :=
  match c with
  | Ok a => k a
  | Raise e => Raise e
  end.

Notation "x <- c ;; k" := (bind c (fun x => k))
  (at level 61, c at next level, right associativity).

(** [for x in xs: acc = body(acc, x)], stopping at the first exception. *)
Fixpoint for_each {A St : Type} (body : St -> A -> result St)
         (xs : list A) (acc : St) : result St :=
  match xs with
  | [] => Ok acc
  | x :: rest => acc' <- body acc x ;; for_each body rest acc'
  end.

(** [returns c v]: the call [c] returns a number equal to [v]. *)
Definition returns (c : result Q) (v : Q) : Prop :=
  match c with
  | Ok x => (x == v)%Q
  | Raise _ => False
  end.

(** ** Python built-ins used by the module *)

(** [range(stop)]: [0, 1, ..., stop - 1], empty when [stop <= 0]. *)
Definition range (stop : Z) : list Z :=
  map Z.of_nat (seq 0 (Z.to_nat stop)).

(** [l * k] on lists: [k] copies of [l] in a row, none when [k <= 0]. *)
Definition list_mul {A : Type} (l : list A) (k : Z) : list A :=
  concat (repeat l (Z.to_nat k)).

(** [len(l)] *)
Definition len {A : Type} (l : list A) : Z := Z.of_nat (length l).

(** [a / b] on integers (true division). *)
Definition truediv (a b : Z) : result Q :=
  if b =? 0 then Raise ZeroDivisionError
  else Ok (inject_Z a / inject_Z b)%Q.

(** [math.floor] *)
Definition math_floor (x : Q) : Z := Qfloor x.

(** [np.power(x, t)] for a float base and an integer exponent.  For
    [t >= 0] this is [x] multiplied [t] times, and [1] when [t = 0], also at
    [x = 0].  (For [t < 0] numpy gives [inf] at [x = 0]; negative exponents
    are outside what the module is used with.) *)
Definition np_power (x : Q) (t : Z) : Q := (x ^ t)%Q.

Definition Qltb (x y : Q) : bool := negb (Qle_bool y x).

(** [min(a, b)] and [max(a, b)] of two arguments: the first one wins ties. *)
Definition py_min (a b : Q) : Q := if Qltb b a then b else a.
Definition py_max (a b : Q) : Q := if Qltb a b then b else a.

(** ** Double precision *)

Definition pow2 (e : Z) : Q := (2 ^ e)%Q.

(** The nearest integer, a tie going to the even one. *)
Definition round_half_even (x : Q) : Z :=
  let f := Qfloor x in
  match (x - inject_Z f ?= 1 # 2)%Q with
  | Lt => f
  | Gt => f + 1
  | Eq => if Z.even f then f else f + 1
  end.

(** For [x > 0], the [k] with [2^k <= x < 2^(k+1)]. *)
Definition ilog2 (x : Q) : Z :=
  let l := Z.log2 (Qnum x) - Z.log2 (Z.pos (Qden x)) in
  if Qle_bool (pow2 l) x then l else l - 1.

(** The exponent of the last place of the double nearest to [x > 0]: 53
    significant bits, and no place finer than [2^-1074]. *)
Definition ulp_exponent (x : Q) : Z := Z.max (-1074) (ilog2 x - 52).

Definition round_positive (x : Q) : Q :=
  let e := ulp_exponent x in
  (inject_Z (round_half_even (x / pow2 e)) * pow2 e)%Q.

(** The double nearest to [x], ties to even (IEEE 754 binary64,
    round-to-nearest-even), for results within the range of doubles. *)
Definition round_double (x : Q) : Q :=
  let x := Qred x in
  match (x ?= 0)%Q with
  | Eq => 0%Q
  | Gt => round_positive x
  | Lt => (- round_positive (- x))%Q
  end.

(** The largest double. *)
Definition max_double : Q := (inject_Z (2 ^ 53 - 1) * pow2 971)%Q.

(** [x] is not beyond the largest double in size. *)
Definition in_double_range (x : Q) : Prop :=
  (- max_double <= x <= max_double)%Q.

(** [float(z)], as in [z * x] with [x] a float. *)
Definition float_of_int (z : Z) : Q := round_double (inject_Z z).

(** [x * y] and [x - y] on floats. *)
Definition float_mul (x y : Q) : Q := round_double (x * y).
Definition float_sub (x y : Q) : Q := round_double (x - y).

(** ** The Poisson binomial collaborator *)

Module PoiBin.

(** What the engine uses of a [PoiBin] instance. *)
Record obj : Type := {
  cdf : Z -> result Q;
  pmf : Z -> result Q
}.

End PoiBin.

(** ** The argument of the entry points *)

(** [arg] is told apart with [isinstance]: a float, a dict from number of
    labels to number of examples (its items in iteration order), a list, or
    anything else. *)
Inductive py_arg : Type :=
| Float (p : Q)
| Dict (items : list (Z * Z))
| List (ps : list Q)
| Other.

(** ** class MaxOrderStatisticPoissonBinomial *)

Module MaxOrderStatisticPoissonBinomial.

Record obj : Type := {
  n : Z;
  _pb : PoiBin.obj
}.

(** [[p for num_labels, num_examples in arg.items()
        for p in [1/num_labels] * num_examples]] *)
Fixpoint dict_ps (items : list (Z * Z)) : result (list Q) :=
  match items with
  | [] => Ok []
  | (num_labels, num_examples) :: rest =>
      q <- truediv 1 num_labels ;;
      tl <- dict_ps rest ;;
      Ok (list_mul [q] num_examples ++ tl)
  end.

Definition _convert_arg_to_ps (n : Z) (arg : py_arg) : result (list Q) :=
  match arg with
  | Float p => Ok (list_mul [p] n)
  | Dict items =>
      ps <- dict_ps items ;;
      if len ps =? n then Ok ps else Raise AssertionError
  | List l => Ok l
  | Other => Raise SystemExit
  end.

Section Construction.

(** The constructor [PoiBin(ps)]. *)
Variable PoiBin_new : list Q -> result PoiBin.obj.

Definition __init__ (n : Z) (arg : py_arg) : result obj :=
  ps <- _convert_arg_to_ps n arg ;;
  pb <- PoiBin_new ps ;;
  Ok {| n := n; _pb := pb |}.

End Construction.

(** The probability mass function *)
Definition pmf (self : obj) (k : Q) (t : Z) : result Q :=
  let k := math_floor k in
  F_k <- PoiBin.cdf (_pb self) k ;;
  f_k <- PoiBin.pmf (_pb self) k ;;
  Ok (np_power F_k t - np_power (F_k - f_k) t)%Q.

(** The distribution function *)
Definition F (self : obj) (k : Q) (t : Z) : result Q :=
  let k := math_floor k in
  if k <? 0 then Ok 0%Q
  else
    F_k <- PoiBin.cdf (_pb self) k ;;
    Ok (np_power F_k t).

(** The expected maximum number of correct guesses among [t] classifiers *)
Definition expectation (self : obj) (t : Z) : result Q :=
  total <- for_each
             (fun total k =>
                v <- pmf self (inject_Z k) t ;;
                Ok (total + inject_Z k * v)%Q)
             (range (n self + 1)) 0%Q ;;
  Ok (py_max (py_min total (inject_Z (n self))) 0%Q).

(** Converts the expected maximum number of correct guesses to an accuracy *)
Definition max_random_baseline (self : obj) (t : Z) : result Q :=
  inv_n <- truediv 1 (n self) ;;
  e <- expectation self t ;;
  Ok (inv_n * e)%Q.

(** Evaluates the p-value of the provided accuracy.  [self.n * acc - 1] is
    a float computation: [self.n] is converted to a float, and the product
    and the difference are each rounded to a double. *)
Definition p_value (self : obj) (acc : Q) (t : Z) : result Q :=
  v <- F self (float_sub (float_mul (float_of_int (n self)) acc) 1) t ;;
  Ok (1 - v)%Q.

End MaxOrderStatisticPoissonBinomial.

Module MOS := MaxOrderStatisticPoissonBinomial.

(** ** Module-level entry points *)

Section EntryPoints.

Variable PoiBin_new : list Q -> result PoiBin.obj.

Definition max_random_baseline (n : Z) (arg : py_arg) (t : Z) : result Q :=
  order <- MOS.__init__ PoiBin_new n arg ;;
  MOS.max_random_baseline order t.

Definition max_random_p_value (acc : Q) (n : Z) (arg : py_arg) (t : Z)
  : result Q :=
  order <- MOS.__init__ PoiBin_new n arg ;;
  MOS.p_value order acc t.

Definition max_random_F (num_correct : Q) (n : Z) (arg : py_arg) (t : Z)
  : result Q :=
  order <- MOS.__init__ PoiBin_new n arg ;;
  MOS.F order num_correct t.

Definition max_random_pmf (num_correct : Q) (n : Z) (arg : py_arg) (t : Z)
  : result Q :=
  order <- MOS.__init__ PoiBin_new n arg ;;
  MOS.pmf order num_correct t.

End EntryPoints.

(** ** A reference Poisson binomial *)

(** The class [PoiBin] lives in [max_random_baseline/poibin/poibin.py].
    The one below computes the point masses of the sum of the Bernoulli
    trials exactly, one trial at a time.  It is the concrete collaborator of
    the examples; no theorem about the engine depends on it. *)
Module PoiBinRef.

Fixpoint zip_add (a b : list Q) : list Q :=
  match a, b with
  | x :: a', y :: b' => Qred (x + y) :: zip_add a' b'
  | _, _ => []
  end.

(** One more trial of success probability [p]. *)
Definition add_trial (p : Q) (d : list Q) : list Q :=
  zip_add (map (Qmult (1 - p)) d ++ [0%Q]) (0%Q :: map (Qmult p) d).

(** Modelled from the spec: the distribution [PoiBin] stands for, that of
    the sum of independent Bernoulli trials with success probabilities [ps];
    here its point masses at [0 .. length ps]. *)
Definition masses (ps : list Q) : list Q :=
  fold_right add_trial [1%Q] ps.

(** Modelled from the spec: [PoiBin.pmf(k)], the probability that the sum
    equals exactly [k]. *)
Definition pmf_at (ps : list Q) (k : Z) : Q :=
  if k <? 0 then 0%Q else nth (Z.to_nat k) (masses ps) 0%Q.

(** Modelled from the spec: [PoiBin.cdf(k)], the probability that the sum
    is at most [k]; [1] for [k >= n] and [0] for [k < 0]. *)
Definition cdf_at (ps : list Q) (k : Z) : Q :=
  if k <? 0 then 0%Q
  else Qred (fold_right Qplus 0%Q (firstn (Z.to_nat k + 1) (masses ps))).

(** Modelled from the spec: the constructor [PoiBin(ps)]. *)
Definition new (ps : list Q) : result PoiBin.obj :=
  Ok {| PoiBin.cdf := fun k => Ok (cdf_at ps k);
        PoiBin.pmf := fun k => Ok (pmf_at ps k) |}.

(** The engine over the reference collaborator. *)
Definition engine (n : Z) (ps : list Q) : MOS.obj :=
  {| MOS.n := n;
     MOS._pb := {| PoiBin.cdf := fun k => Ok (cdf_at ps k);
                   PoiBin.pmf := fun k => Ok (pmf_at ps k) |} |}.

End PoiBinRef.

(** A collaborator that raises outside [0 .. n], as an implementation that
    validates its input does. *)
Definition strict_PoiBin (ps : list Q) : PoiBin.obj :=
  let checked (f : Z -> Q) (k : Z) : result Q :=
    if (k <? 0) || (len ps <? k) then Raise PoiBinError else Ok (f k) in
  {| PoiBin.cdf := checked (PoiBinRef.cdf_at ps);
     PoiBin.pmf := checked (PoiBinRef.pmf_at ps) |}.

(** ** Notions the statements use *)

(** [Qsum f m] is [f 0 + f 1 + ... + f m]. *)
Fixpoint Qsum (f : Z -> Q) (m : nat) : Q :=
  match m with
  | O => f 0
  | S m' => (Qsum f m' + f (Z.of_nat (S m')))%Q
  end.

(** [x] brought into the interval from [lo] to [hi]. *)
Definition clamp (lo hi x : Q) : Q :=
  if Qlt_le_dec x lo then lo
  else if Qlt_le_dec hi x then hi
  else x.

(** What a mapping stands for: for each entry, in order, [num_examples]
    copies of [1/num_labels]. *)
Definition copies_per_entry (items : list (Z * Z)) : list Q :=
  flat_map (fun '(num_labels, num_examples) =>
              repeat (1 / inject_Z num_labels)%Q (Z.to_nat num_examples))
           items.

(** The number of examples a mapping accounts for. *)
Definition examples_total (items : list (Z * Z)) : Z :=
  fold_right (fun '(_, num_examples) s => Z.max 0 num_examples + s) 0 items.

(** The collaborator answers on [0 .. k] with [c] for [cdf] and [p] for
    [pmf], and the two agree: [cdf(j) - pmf(j) = cdf(j - 1)], with
    [cdf(-1) = 0]. *)
Definition consistent_upto (pb : PoiBin.obj) (c p : Z -> Q) (k : Z) : Prop :=
  (forall j, 0 <= j <= k ->
             PoiBin.cdf pb j = Ok (c j) /\ PoiBin.pmf pb j = Ok (p j)) /\
  (c 0%Z - p 0%Z == 0)%Q /\
  (forall j, 0 < j <= k -> (c j - p j == c (j - 1)%Z)%Q).

(** The collaborator answers at every count from [0] to [k]. *)
Definition answers_upto (pb : PoiBin.obj) (k : Z) : Prop :=
  forall j, 0 <= j <= k ->
            exists F_j f_j, PoiBin.cdf pb j = Ok F_j /\ PoiBin.pmf pb j = Ok f_j.

(** Two fair binary examples over the reference collaborator. *)
Definition two_coins : MOS.obj := PoiBinRef.engine 2 [1#2; 1#2]%Q.

(** The same examples over a collaborator that validates its input. *)
Definition two_coins_strict : MOS.obj :=
  {| MOS.n := 2; MOS._pb := strict_PoiBin [1#2; 1#2]%Q |}.

(** The collaborator's [cdf] answers on [0 .. hi] with [c], whose values
    lie between 0 and 1 and do not decrease. *)
Definition cdf_upto (pb : PoiBin.obj) (c : Z -> Q) (hi : Z) : Prop :=
  forall j, 0 <= j <= hi ->
            PoiBin.cdf pb j = Ok (c j) /\
            (0 <= c j <= 1)%Q /\
            (forall i, 0 <= i <= j -> (c i <= c j)%Q).

(** The collaborator is the distribution of a count between [0] and [n]:
    [cdf] and [pmf] agree, no mass is negative, and all of it lies at or
    below [n]. *)
Definition distribution_upto (pb : PoiBin.obj) (c p : Z -> Q) (n : Z) : Prop :=
  consistent_upto pb c p n /\
  (forall j, 0 <= j <= n -> (0 <= p j)%Q) /\
  (c n == 1)%Q.

(** Three examples declared, two probabilities given, over a collaborator
    that validates its input. *)
Definition two_probabilities_for_three : MOS.obj :=
  {| MOS.n := 3; MOS._pb := strict_PoiBin [1#2; 1#2]%Q |}.

(** The chance that one random classifier, right on each example with the
    probabilities [ps], scores an accuracy strictly above [acc] on [n]
    examples: the mass of the counts [k] with [k > n * acc]. *)
Definition chance_above (ps : list Q) (n : Z) (acc : Q) : Q :=
  fold_right Qplus 0%Q
    (map (PoiBinRef.pmf_at ps)
         (filter (fun k => Qltb (inject_Z n * acc) (inject_Z k))
                 (range (n + 1)))).

(** Three fair binary examples over the reference collaborator. *)
Definition three_coins : MOS.obj := PoiBinRef.engine 3 [1#2; 1#2; 1#2]%Q.

(** The double nearest to 1/3, [0.3333333333333333]; it lies below 1/3. *)
Definition double_one_third : Q := 6004799503160661 # 18014398509481984.

(** ** Examples from the module's documentation *)

Example fair_coin_masses :
  PoiBinRef.masses [1#2; 1#2]%Q = [1#4; 1#2; 1#4]%Q.
Proof. reflexivity. Qed.

(** One example, one fair guess, one classifier: the baseline is 1/2. *)
Example baseline_one_fair_guess :
  returns (max_random_baseline PoiBinRef.new 1 (Float (1#2)) 1) (1#2).
Proof. vm_compute. reflexivity. Qed.

Example baseline_dict_same_as_list :
  max_random_baseline PoiBinRef.new 4 (Dict [(2, 2); (5, 2)]) 3
  = max_random_baseline PoiBinRef.new 4
      (List (list_mul [1#2]%Q 2 ++ list_mul [1#5]%Q 2)) 3.
Proof. vm_compute. reflexivity. Qed.

Example unrecognized_arg_exits :
  max_random_baseline PoiBinRef.new 4 Other 3 = Raise SystemExit.
Proof. reflexivity. Qed.

(** ** Basic facts about the built-ins *)

Lemma math_floor_int (k : Z) : math_floor (inject_Z k) = k.
Proof. apply Qfloor_Z. Qed.

Lemma math_floor_floor (k : Q) :
  math_floor (inject_Z (math_floor k)) = math_floor k.
Proof. apply math_floor_int. Qed.

Lemma Qltb_lt (x y : Q) : Qltb x y = true <-> (x < y)%Q.
Proof.
  unfold Qltb. rewrite negb_true_iff, <- not_true_iff_false, Qle_bool_iff.
  split; [apply Qnot_le_lt | apply Qlt_not_le].
Qed.

Lemma Qltb_ge (x y : Q) : Qltb x y = false <-> (y <= x)%Q.
Proof. unfold Qltb. rewrite negb_false_iff. apply Qle_bool_iff. Qed.

Lemma list_mul_singleton {A : Type} (x : A) (k : Z) :
  list_mul [x] k = repeat x (Z.to_nat k).
Proof.
  unfold list_mul. induction (Z.to_nat k) as [|m IH]; simpl;
    [reflexivity | now rewrite IH].
Qed.

(** ** Rounding to double precision *)

Lemma pow2_pos e : (0 < pow2 e)%Q.
Proof. apply Qpower_0_lt. reflexivity. Qed.

Lemma pow2_add a b : (pow2 (a + b) == pow2 a * pow2 b)%Q.
Proof. apply Qpower_plus. discriminate. Qed.

Lemma pow2_le a b : a <= b -> (pow2 a <= pow2 b)%Q.
Proof. intros H. apply Qpower_le_compat_l; [exact H | discriminate]. Qed.

Lemma pow2_lt_inv a b : (pow2 a < pow2 b)%Q -> a < b.
Proof. intros H. apply (Qpower_lt_compat_l_inv 2); [exact H | reflexivity]. Qed.

Lemma pow2_Z e : 0 <= e -> (inject_Z (2 ^ e) == pow2 e)%Q.
Proof. intros H. apply (Zpower_Qpower 2 e H). Qed.

Lemma round_half_even_between (x : Q) :
  Qfloor x <= round_half_even x <= Qfloor x + 1.
Proof.
  unfold round_half_even.
  destruct (x - inject_Z (Qfloor x) ?= 1 # 2)%Q; [| lia | lia].
  destruct (Z.even (Qfloor x)); lia.
Qed.

Lemma round_half_even_comp (x y : Q) :
  (x == y)%Q -> round_half_even x = round_half_even y.
Proof.
  intros H. unfold round_half_even.
  rewrite (Qfloor_comp x y H).
  replace (x - inject_Z (Qfloor y) ?= 1 # 2)%Q
    with (y - inject_Z (Qfloor y) ?= 1 # 2)%Q; [reflexivity |].
  apply Qcompare_comp; [rewrite H; reflexivity | reflexivity].
Qed.

Lemma round_half_even_int (x : Q) (z : Z) :
  (x == inject_Z z)%Q -> round_half_even x = z.
Proof.
  intros H. rewrite (round_half_even_comp x (inject_Z z) H).
  unfold round_half_even. rewrite Qfloor_Z.
  destruct (Qcompare_spec (inject_Z z - inject_Z z) (1 # 2));
    [exfalso; lra | reflexivity | exfalso; lra].
Qed.

Lemma round_half_even_monotone (x y : Q) :
  (x <= y)%Q -> round_half_even x <= round_half_even y.
Proof.
  intros Hxy.
  pose proof (Qfloor_resp_le x y Hxy) as Hfloor.
  pose proof (round_half_even_between x) as Hx.
  pose proof (round_half_even_between y) as Hy.
  destruct (Z.eq_dec (Qfloor x) (Qfloor y)) as [E | NE]; [| lia].
  unfold round_half_even in *. rewrite E in *.
  destruct (Qcompare_spec (x - inject_Z (Qfloor y)) (1 # 2)) as [Hx1 | Hx1 | Hx1];
    destruct (Qcompare_spec (y - inject_Z (Qfloor y)) (1 # 2)) as [Hy1 | Hy1 | Hy1];
    try lia; try (destruct (Z.even (Qfloor y)); lia); exfalso; lra.
Qed.

Lemma ilog2_spec (x : Q) :
  (0 < x)%Q -> (pow2 (ilog2 x) <= x < pow2 (ilog2 x + 1))%Q.
Proof.
  intros Hx. destruct x as [a b].
  assert (Ha : 0 < a).
  { unfold Qlt in Hx. simpl in Hx. lia. }
  unfold ilog2. cbn [Qnum Qden].
  set (la := Z.log2 a). set (lb := Z.log2 (Z.pos b)).
  pose proof (Z.log2_spec a Ha) as [Ha1 Ha2]. fold la in Ha1, Ha2.
  pose proof (Z.log2_spec (Z.pos b) ltac:(lia)) as [Hb1 Hb2].
  fold lb in Hb1, Hb2.
  assert (Hla : 0 <= la) by apply Z.log2_nonneg.
  assert (Hlb : 0 <= lb) by apply Z.log2_nonneg.
  unfold Z.succ in *.
  rewrite Zle_Qle, pow2_Z in Ha1 by lia.
  rewrite Zle_Qle, pow2_Z in Hb1 by lia.
  rewrite Zlt_Qlt, pow2_Z in Ha2 by lia.
  rewrite Zlt_Qlt, pow2_Z in Hb2 by lia.
  assert (Hx' : (a # b == inject_Z a / inject_Z (Z.pos b))%Q)
    by apply Qmake_Qdiv.
  set (qa := inject_Z a) in *. set (qb := inject_Z (Z.pos b)) in *.
  assert (Hqb : (0 < qb)%Q).
  { unfold qb. change 0%Q with (inject_Z 0). rewrite <- Zlt_Qlt. lia. }
  assert (Hmul : ((a # b) * qb == qa)%Q).
  { rewrite Hx'. field. lra. }
  assert (Hup : (a # b < pow2 (la - lb + 1))%Q).
  { apply (Qmult_lt_r _ _ qb Hqb). rewrite Hmul.
    apply Qlt_le_trans with (pow2 (la + 1)); [exact Ha2 |].
    replace (la + 1) with ((la - lb + 1) + lb) by lia.
    rewrite pow2_add. apply Qmult_le_l; [apply pow2_pos | exact Hb1]. }
  assert (Hlow : (pow2 (la - lb - 1) <= a # b)%Q).
  { apply (Qmult_le_r _ _ qb Hqb). rewrite Hmul.
    apply Qle_trans with (pow2 la); [| exact Ha1].
    replace la with ((la - lb - 1) + (lb + 1)) at 2 by lia.
    rewrite pow2_add. apply Qmult_le_l; [apply pow2_pos |].
    apply Qlt_le_weak. exact Hb2. }
  destruct (Qle_bool (pow2 (la - lb)) (a # b)) eqn:E.
  - apply Qle_bool_iff in E. split; assumption.
  - assert (Hlt : (a # b < pow2 (la - lb))%Q).
    { apply Qnot_le_lt. intros H. apply Qle_bool_iff in H. congruence. }
    replace (la - lb - 1 + 1) with (la - lb) by lia. split; assumption.
Qed.

Lemma ilog2_monotone (x y : Q) :
  (0 < x)%Q -> (x <= y)%Q -> ilog2 x <= ilog2 y.
Proof.
  intros Hx Hxy.
  pose proof (ilog2_spec x Hx) as [Hx1 _].
  pose proof (ilog2_spec y ltac:(lra)) as [_ Hy2].
  assert (H : (pow2 (ilog2 x) < pow2 (ilog2 y + 1))%Q) by lra.
  apply pow2_lt_inv in H. lia.
Qed.

Lemma scaled_below (x : Q) :
  (0 < x)%Q -> (x / pow2 (ulp_exponent x) < pow2 53)%Q.
Proof.
  intros Hx. pose proof (ilog2_spec x Hx) as [_ Hup].
  apply Qlt_shift_div_r; [apply pow2_pos |].
  rewrite <- pow2_add.
  apply Qlt_le_trans with (pow2 (ilog2 x + 1)); [exact Hup |].
  apply pow2_le. unfold ulp_exponent. lia.
Qed.

Lemma scaled_above (x : Q) :
  (0 < x)%Q -> -1074 < ulp_exponent x ->
  (pow2 52 <= x / pow2 (ulp_exponent x))%Q.
Proof.
  intros Hx He. pose proof (ilog2_spec x Hx) as [Hlow _].
  apply Qle_shift_div_l; [apply pow2_pos |].
  rewrite <- pow2_add.
  apply Qle_trans with (pow2 (ilog2 x)); [| exact Hlow].
  apply pow2_le. unfold ulp_exponent in *. lia.
Qed.

Lemma round_positive_nonneg (x : Q) : (0 <= x)%Q -> (0 <= round_positive x)%Q.
Proof.
  intros Hx. unfold round_positive.
  apply Qmult_le_0_compat; [| apply Qlt_le_weak, pow2_pos].
  change 0%Q with (inject_Z 0). rewrite <- Zle_Qle.
  pose proof (round_half_even_between (x / pow2 (ulp_exponent x))) as [H _].
  apply Z.le_trans with (Qfloor (x / pow2 (ulp_exponent x))); [| exact H].
  change 0 with (Qfloor 0). apply Qfloor_resp_le.
  apply Qle_shift_div_l; [apply pow2_pos |]. lra.
Qed.

Lemma round_positive_monotone (x y : Q) :
  (0 < x)%Q -> (x <= y)%Q -> (round_positive x <= round_positive y)%Q.
Proof.
  intros Hx Hxy.
  assert (Hy : (0 < y)%Q) by lra.
  assert (He : ulp_exponent x <= ulp_exponent y).
  { pose proof (ilog2_monotone x y Hx Hxy). unfold ulp_exponent. lia. }
  unfold round_positive.
  destruct (Z.eq_dec (ulp_exponent x) (ulp_exponent y)) as [E | NE].
  - rewrite E. apply Qmult_le_compat_r; [| apply Qlt_le_weak, pow2_pos].
    rewrite <- Zle_Qle. apply round_half_even_monotone.
    apply Qmult_le_compat_r; [exact Hxy |].
    apply Qlt_le_weak, Qinv_lt_0_compat, pow2_pos.
  - set (ex := ulp_exponent x) in *. set (ey := ulp_exponent y) in *.
    assert (Hrx : round_half_even (x / pow2 ex) <= 2 ^ 53).
    { rewrite <- (round_half_even_int (pow2 53) (2 ^ 53))
        by (symmetry; apply pow2_Z; lia).
      apply round_half_even_monotone, Qlt_le_weak, scaled_below. exact Hx. }
    assert (Hry : 2 ^ 52 <= round_half_even (y / pow2 ey)).
    { rewrite <- (round_half_even_int (pow2 52) (2 ^ 52))
        by (symmetry; apply pow2_Z; lia).
      apply round_half_even_monotone, scaled_above; [exact Hy |].
      unfold ex, ey, ulp_exponent in *. lia. }
    apply Qle_trans with (pow2 (53 + ex)).
    + rewrite pow2_add, <- (pow2_Z 53) by lia.
      apply Qmult_le_compat_r; [| apply Qlt_le_weak, pow2_pos].
      rewrite <- Zle_Qle. exact Hrx.
    + apply Qle_trans with (pow2 (52 + ey)); [apply pow2_le; lia |].
      rewrite pow2_add, <- (pow2_Z 52) by lia.
      apply Qmult_le_compat_r; [| apply Qlt_le_weak, pow2_pos].
      rewrite <- Zle_Qle. exact Hry.
Qed.

Lemma round_positive_comp (x y : Q) :
  (0 < x)%Q -> (x == y)%Q -> (round_positive x == round_positive y)%Q.
Proof.
  intros Hx Hxy. apply Qle_antisym; apply round_positive_monotone; lra.
Qed.

Lemma round_positive_int (x : Q) (z : Z) :
  (x == inject_Z z)%Q -> 0 < z < 2 ^ 53 ->
  (round_positive x == inject_Z z)%Q.
Proof.
  intros Hxz Hz.
  assert (Hx : (0 < x)%Q).
  { rewrite Hxz. change 0%Q with (inject_Z 0). rewrite <- Zlt_Qlt. lia. }
  assert (He : -1074 <= ulp_exponent x <= 0).
  { pose proof (ilog2_spec x Hx) as [Hlow _].
    assert (H : (pow2 (ilog2 x) < pow2 53)%Q).
    { apply Qle_lt_trans with x; [exact Hlow |].
      rewrite Hxz, <- (pow2_Z 53), <- Zlt_Qlt by lia. lia. }
    apply pow2_lt_inv in H. unfold ulp_exponent. lia. }
  unfold round_positive. set (e := ulp_exponent x) in *.
  assert (Hscaled : (x / pow2 e == inject_Z (z * 2 ^ (- e)))%Q).
  { rewrite inject_Z_mult, pow2_Z, Hxz by lia.
    apply Qmult_inj_r with (pow2 e);
      [pose proof (pow2_pos e); lra |].
    unfold Qdiv. rewrite <- !Qmult_assoc.
    rewrite (Qmult_comm (/ pow2 e)), Qmult_inv_r
      by (pose proof (pow2_pos e); lra).
    rewrite <- pow2_add. replace (- e + e) with 0 by lia.
    reflexivity. }
  rewrite (round_half_even_int _ _ Hscaled).
  rewrite inject_Z_mult, pow2_Z by lia.
  rewrite <- Qmult_assoc, <- pow2_add, <- Hxz.
  replace (- e + e) with 0 by lia. change (pow2 0) with 1%Q. ring.
Qed.

Lemma round_double_comp (x y : Q) :
  (x == y)%Q -> round_double x = round_double y.
Proof.
  intros H. unfold round_double. rewrite (Qred_complete x y H). reflexivity.
Qed.

Lemma round_double_zero (x : Q) : (x == 0)%Q -> round_double x = 0%Q.
Proof. intros H. rewrite (round_double_comp x 0 H). reflexivity. Qed.

Lemma round_double_monotone (x y : Q) :
  (x <= y)%Q -> (round_double x <= round_double y)%Q.
Proof.
  intros Hxy. unfold round_double.
  pose proof (Qred_correct x) as Ex. pose proof (Qred_correct y) as Ey.
  set (x' := Qred x) in *. set (y' := Qred y) in *.
  assert (Hxy' : (x' <= y')%Q) by lra.
  destruct (Qcompare_spec x' 0) as [Hx | Hx | Hx];
    destruct (Qcompare_spec y' 0) as [Hy | Hy | Hy];
    try (exfalso; lra).
  - apply Qle_refl.
  - apply round_positive_nonneg. lra.
  - pose proof (round_positive_nonneg (- x') ltac:(lra)). lra.
  - pose proof (round_positive_monotone (- y') (- x') ltac:(lra) ltac:(lra)).
    lra.
  - pose proof (round_positive_nonneg (- x') ltac:(lra)).
    pose proof (round_positive_nonneg y' ltac:(lra)). lra.
  - apply round_positive_monotone; assumption.
Qed.

Lemma round_double_int (x : Q) (z : Z) :
  (x == inject_Z z)%Q -> 0 <= z < 2 ^ 53 ->
  (round_double x == inject_Z z)%Q.
Proof.
  intros Hxz Hz.
  destruct (Z.eq_dec z 0) as [-> | Hnz].
  - rewrite (round_double_zero x Hxz). reflexivity.
  - unfold round_double. pose proof (Qred_correct x) as Ex.
    set (x' := Qred x) in *.
    assert (Hpos : (0 < x')%Q).
    { rewrite Ex, Hxz. change 0%Q with (inject_Z 0). rewrite <- Zlt_Qlt.
      lia. }
    destruct (Qcompare_spec x' 0) as [H | H | H]; try (exfalso; lra).
    apply round_positive_int; [lra | lia].
Qed.

Lemma Qfloor_of_int (x : Q) (z : Z) : (x == inject_Z z)%Q -> Qfloor x = z.
Proof. intros H. rewrite (Qfloor_comp _ _ H). apply Qfloor_Z. Qed.

(** Integers below [2^53] go through [self.n * acc - 1] unharmed when
    [acc] is [1]. *)
Lemma count_minus_one_at_one (n : Z) :
  1 <= n < 2 ^ 53 ->
  (float_sub (float_mul (float_of_int n) 1) 1 == inject_Z (n - 1))%Q.
Proof.
  intros Hn.
  assert (E1 : (float_of_int n == inject_Z n)%Q).
  { apply round_double_int; [reflexivity | lia]. }
  assert (E2 : (float_mul (float_of_int n) 1 == inject_Z n)%Q).
  { apply round_double_int; [rewrite E1; ring | lia]. }
  apply round_double_int; [| lia].
  rewrite E2. unfold Zminus. rewrite inject_Z_plus. reflexivity.
Qed.


(** ** The distribution function and the probability mass function *)

Section Engine.

Variable self : MOS.obj.

(** C2.  [pmf(k, t)] floors [k] first: it only depends on [floor(k)].
    When the collaborator returns [F_k = cdf(floor(k))] and
    [f_k = pmf(floor(k))], [pmf(k, t)] returns
    [F_k^t - (F_k - f_k)^t]; when one of the two calls raises, so does
    [pmf(k, t)]. *)
Theorem pmf_floors_then_differences (k : Q) (t : Z) :
  MOS.pmf self k t = MOS.pmf self (inject_Z (Qfloor k)) t /\
  (forall F_k f_k : Q,
      PoiBin.cdf (MOS._pb self) (Qfloor k) = Ok F_k ->
      PoiBin.pmf (MOS._pb self) (Qfloor k) = Ok f_k ->
      MOS.pmf self k t = Ok (F_k ^ t - (F_k - f_k) ^ t)%Q) /\
  (forall e, PoiBin.cdf (MOS._pb self) (Qfloor k) = Raise e ->
             MOS.pmf self k t = Raise e) /\
  (forall F_k e,
      PoiBin.cdf (MOS._pb self) (Qfloor k) = Ok F_k ->
      PoiBin.pmf (MOS._pb self) (Qfloor k) = Raise e ->
      MOS.pmf self k t = Raise e).
Proof.
  unfold MOS.pmf. rewrite math_floor_floor. unfold math_floor.
  split; [reflexivity | split; [| split]].
  - intros F_k f_k HF Hf. rewrite HF, Hf. reflexivity.
  - intros e HF. rewrite HF. reflexivity.
  - intros F_k e HF Hf. rewrite HF, Hf. reflexivity.
Qed.

(** C3.  [F(k, t)] returns [0] whenever [floor(k) < 0], whatever the
    collaborator would do there; otherwise it returns
    [cdf(floor(k))^t], or raises what [cdf] raises. *)
Theorem F_zero_below_else_power (k : Q) (t : Z) :
  (Qfloor k < 0 -> MOS.F self k t = Ok 0%Q) /\
  (0 <= Qfloor k ->
   forall F_k, PoiBin.cdf (MOS._pb self) (Qfloor k) = Ok F_k ->
               MOS.F self k t = Ok (F_k ^ t)%Q) /\
  (0 <= Qfloor k ->
   forall e, PoiBin.cdf (MOS._pb self) (Qfloor k) = Raise e ->
             MOS.F self k t = Raise e).
Proof.
  unfold MOS.F, math_floor.
  destruct (Z.ltb_spec (Qfloor k) 0) as [Hneg | Hpos].
  - split; [reflexivity | split; intros; lia].
  - split; [lia | split]; intros _ ? HF; rewrite HF; reflexivity.
Qed.

End Engine.

Lemma pmf_floors_then_differences_witness :
  MOS.pmf two_coins (3#2) 2 = Ok ((3#4) ^ 2 - ((3#4) - (1#2)) ^ 2)%Q.
Proof.
  apply (proj1 (proj2 (pmf_floors_then_differences two_coins (3#2) 2)));
    reflexivity.
Defined.

Lemma F_zero_below_else_power_witness :
  MOS.F two_coins_strict (-1#2) 2 = Ok 0%Q /\
  MOS.F two_coins_strict (3#2) 2 = Ok ((3#4) ^ 2)%Q.
Proof.
  split.
  - apply (proj1 (F_zero_below_else_power two_coins_strict (-1#2) 2)).
    reflexivity.
  - apply (proj1 (proj2 (F_zero_below_else_power two_coins_strict (3#2) 2))).
    + discriminate.
    + reflexivity.
Defined.

(** ** The loop of [expectation] *)

Lemma range_snoc (m : nat) :
  range (Z.of_nat m + 1) = range (Z.of_nat m) ++ [Z.of_nat m].
Proof.
  unfold range.
  replace (Z.to_nat (Z.of_nat m + 1)) with (S m) by lia.
  rewrite Nat2Z.id, seq_S, map_app. reflexivity.
Qed.

Lemma in_range (k stop : Z) : In k (range stop) <-> 0 <= k < stop.
Proof.
  unfold range. rewrite in_map_iff. split.
  - intros [i [<- Hi]]. apply in_seq in Hi. lia.
  - intros H. exists (Z.to_nat k). split; [lia |]. apply in_seq. lia.
Qed.

Lemma for_each_all_return {A St : Type} (body : St -> A -> result St)
      (step : St -> A -> St) (xs : list A) :
  (forall x, In x xs -> forall acc, body acc x = Ok (step acc x)) ->
  forall acc, for_each body xs acc = Ok (fold_left step xs acc).
Proof.
  induction xs as [|x rest IH]; intros Hbody acc; simpl; [reflexivity |].
  rewrite (Hbody x (or_introl eq_refl)). simpl.
  apply IH. intros y Hy. apply Hbody. right. exact Hy.
Qed.

Lemma running_total_is_Qsum (w : Z -> Q) (m : nat) :
  (fold_left (fun total k => total + inject_Z k * w k)
             (range (Z.of_nat m + 1)) 0
   == Qsum (fun k => inject_Z k * w k) m)%Q.
Proof.
  induction m as [|m IH].
  - simpl. ring.
  - rewrite range_snoc, fold_left_app. simpl fold_left.
    replace (Z.of_nat (S m)) with (Z.of_nat m + 1) at 1 by lia.
    rewrite IH. simpl Qsum. reflexivity.
Qed.

Lemma clamp_bounds (lo hi x : Q) :
  (lo <= hi -> lo <= clamp lo hi x <= hi)%Q.
Proof.
  intros H. unfold clamp.
  destruct (Qlt_le_dec x lo) as [Hlo | Hlo].
  - split; [apply Qle_refl | exact H].
  - destruct (Qlt_le_dec hi x) as [Hhi | Hhi].
    + split; [exact H | apply Qle_refl].
    + split; assumption.
Qed.

Lemma max_min_is_clamp (total hi : Q) :
  (0 <= hi)%Q -> (py_max (py_min total hi) 0 == clamp 0 hi total)%Q.
Proof.
  intros Hhi. unfold py_max, py_min, clamp.
  destruct (Qltb hi total) eqn:E1.
  - apply Qltb_lt in E1.
    destruct (Qlt_le_dec total 0) as [Hneg | _].
    + exfalso. apply (Qlt_irrefl hi).
      apply Qlt_le_trans with total; [exact E1 |].
      apply Qle_trans with 0%Q; [apply Qlt_le_weak; exact Hneg | exact Hhi].
    + destruct (Qlt_le_dec hi total) as [_ | Hle];
        [| exfalso; apply (Qlt_not_le _ _ E1 Hle)].
      destruct (Qltb hi 0) eqn:E2; [| reflexivity].
      apply Qltb_lt in E2. exfalso. apply (Qlt_not_le _ _ E2 Hhi).
  - apply Qltb_ge in E1.
    destruct (Qlt_le_dec total 0) as [Hneg | Hpos].
    + apply Qltb_lt in Hneg. rewrite Hneg. reflexivity.
    + apply Qltb_ge in Hpos. rewrite Hpos.
      destruct (Qlt_le_dec hi total) as [Hlt | _]; [| reflexivity].
      exfalso. apply (Qlt_not_le _ _ Hlt E1).
Qed.

Lemma truediv_nonzero (a b : Z) :
  b <> 0 -> truediv a b = Ok (inject_Z a / inject_Z b)%Q.
Proof.
  intros Hb. unfold truediv.
  destruct (Z.eqb_spec b 0); [contradiction | reflexivity].
Qed.

Lemma inject_Z_nonzero (z : Z) : z <> 0 -> ~ (inject_Z z == 0)%Q.
Proof.
  intros Hz H. apply Hz.
  unfold Qeq in H. simpl in H. lia.
Qed.

(** The loop returns the running total when every [pmf(k, t)] returns. *)
Lemma expectation_loop (self : MOS.obj) (t : Z) (w : Z -> Q) :
  (forall k, 0 <= k <= MOS.n self ->
             MOS.pmf self (inject_Z k) t = Ok (w k)) ->
  MOS.expectation self t =
  Ok (py_max
        (py_min
           (fold_left (fun total k => total + inject_Z k * w k)%Q
                      (range (MOS.n self + 1)) 0%Q)
           (inject_Z (MOS.n self)))
        0%Q).
Proof.
  intros Hw. unfold MOS.expectation.
  rewrite for_each_all_return
    with (step := (fun total k => total + inject_Z k * w k)%Q).
  - reflexivity.
  - intros k Hk acc. apply in_range in Hk.
    rewrite Hw by lia. reflexivity.
Qed.

(** C1.  When [pmf(k, t)] returns [w k] for [k = 0 .. n], [expectation(t)]
    returns the sum of [k * w k] over [k = 0 .. n] clamped into [0, n], and
    [max_random_baseline(t)] returns that divided by [n]. *)
Theorem expectation_clamped_sum_baseline_ratio
        (self : MOS.obj) (t : Z) (w : Z -> Q) :
  0 < MOS.n self ->
  (forall k, 0 <= k <= MOS.n self ->
             MOS.pmf self (inject_Z k) t = Ok (w k)) ->
  exists e b : Q,
    MOS.expectation self t = Ok e /\
    (e == clamp 0 (inject_Z (MOS.n self))
                (Qsum (fun k => inject_Z k * w k) (Z.to_nat (MOS.n self))))%Q /\
    (0 <= e <= inject_Z (MOS.n self))%Q /\
    MOS.max_random_baseline self t = Ok b /\
    (b == e / inject_Z (MOS.n self))%Q.
Proof.
  intros Hn Hw.
  pose proof (expectation_loop self t w Hw) as He.
  assert (Hn0 : (0 <= inject_Z (MOS.n self))%Q).
  { change 0%Q with (inject_Z 0). rewrite <- Zle_Qle. lia. }
  assert (Hclamp :
            (py_max
               (py_min
                  (fold_left (fun total k => total + inject_Z k * w k)
                             (range (MOS.n self + 1)) 0)
                  (inject_Z (MOS.n self))) 0
             == clamp 0 (inject_Z (MOS.n self))
                      (Qsum (fun k => inject_Z k * w k)
                            (Z.to_nat (MOS.n self))))%Q).
  { rewrite max_min_is_clamp by exact Hn0.
    pose proof (running_total_is_Qsum w (Z.to_nat (MOS.n self))) as Hsum.
    rewrite Z2Nat.id in Hsum by lia.
    unfold clamp.
    destruct (Qlt_le_dec _ 0) as [H1 | H1];
      destruct (Qlt_le_dec (Qsum _ _) 0) as [H2 | H2];
      try reflexivity.
    - rewrite Hsum in H1. exfalso. apply (Qlt_not_le _ _ H1 H2).
    - rewrite Hsum in H1. exfalso. apply (Qlt_not_le _ _ H2 H1).
    - destruct (Qlt_le_dec (inject_Z (MOS.n self)) _) as [H3 | H3];
        destruct (Qlt_le_dec (inject_Z (MOS.n self)) (Qsum _ _)) as [H4 | H4];
        try reflexivity.
      + rewrite Hsum in H3. exfalso. apply (Qlt_not_le _ _ H3 H4).
      + rewrite Hsum in H3. exfalso. apply (Qlt_not_le _ _ H4 H3).
      + exact Hsum. }
  eexists. eexists.
  split; [exact He |].
  split; [exact Hclamp |].
  split.
  { rewrite Hclamp. apply clamp_bounds. exact Hn0. }
  split.
  { unfold MOS.max_random_baseline.
    rewrite truediv_nonzero by lia. simpl bind. rewrite He. reflexivity. }
  field. apply inject_Z_nonzero. lia.
Qed.

Lemma expectation_clamped_sum_baseline_ratio_witness :
  exists e b : Q,
    MOS.expectation two_coins 2 = Ok e /\
    (e == clamp 0 2
                (Qsum (fun k => inject_Z k *
                                ((PoiBinRef.cdf_at [1#2; 1#2] k) ^ 2 -
                                 (PoiBinRef.cdf_at [1#2; 1#2] k -
                                  PoiBinRef.pmf_at [1#2; 1#2] k) ^ 2))
                      2))%Q /\
    (0 <= e <= 2)%Q /\
    MOS.max_random_baseline two_coins 2 = Ok b /\
    (b == e / 2)%Q.
Proof.
  apply (expectation_clamped_sum_baseline_ratio
           two_coins 2
           (fun k => (PoiBinRef.cdf_at [1#2; 1#2] k) ^ 2 -
                     (PoiBinRef.cdf_at [1#2; 1#2] k -
                      PoiBinRef.pmf_at [1#2; 1#2] k) ^ 2)%Q).
  - reflexivity.
  - intros k _. unfold MOS.pmf. rewrite math_floor_int. reflexivity.
Defined.

(** With no example at all, [1/self.n] raises before anything else. *)
Lemma baseline_no_examples (self : MOS.obj) (t : Z) :
  MOS.n self = 0 -> MOS.max_random_baseline self t = Raise ZeroDivisionError.
Proof. intros Hn. unfold MOS.max_random_baseline. rewrite Hn. reflexivity. Qed.

(** The best of two classifiers on two fair binary examples gets 11/8
    examples right on average. *)
Example expectation_two_coins_two_classifiers :
  returns (MOS.expectation two_coins 2) (11#8).
Proof. vm_compute. reflexivity. Qed.

(** ** The p-value *)

Lemma Qfloor_minus_one (x : Q) : Qfloor (x - 1) = Qfloor x - 1.
Proof.
  destruct x as [a b]. unfold Qminus, Qplus, Qopp, Qfloor. simpl.
  rewrite Pos.mul_1_r.
  replace (a * 1 + Z.neg b) with (a + (-1) * Z.pos b) by lia.
  rewrite Z.div_add by lia. lia.
Qed.

Lemma Qfloor_negative (x : Q) : (x < 0)%Q -> Qfloor x < 0.
Proof.
  intros Hx. rewrite Zlt_Qlt.
  apply Qle_lt_trans with x; [apply Qfloor_le | exact Hx].
Qed.

(** C5.  [p_value(acc, t)] returns exactly [1] whenever the double that
    the code computes as [n * acc - 1] is negative (the doubles involved
    being within range), whatever the collaborator.  It is negative for
    every [acc >= 0] with [n * acc <= 1 - 2^-53] (and [0 < n < 2^53]), and
    at [acc = 0], where [p_value(0, t)] is [1 - F(-1, t)] with
    [F(-1, t) = 0]. *)
Theorem p_value_one_when_computed_negative
        (self : MOS.obj) (acc : Q) (t : Z) :
  (in_double_range (float_of_int (MOS.n self)) ->
   in_double_range (float_sub (float_mul (float_of_int (MOS.n self)) acc) 1) ->
   (float_sub (float_mul (float_of_int (MOS.n self)) acc) 1 < 0)%Q ->
   MOS.p_value self acc t = Ok 1%Q) /\
  (0 < MOS.n self < 2 ^ 53 ->
   (0 <= acc)%Q ->
   (inject_Z (MOS.n self) * acc <= 1 - pow2 (-53))%Q ->
   MOS.p_value self acc t = Ok 1%Q) /\
  (in_double_range (float_of_int (MOS.n self)) ->
   MOS.p_value self 0%Q t = Ok 1%Q) /\
  MOS.F self (-1)%Q t = Ok 0%Q.
Proof.
  assert (Hneg : forall a : Q,
             (float_sub (float_mul (float_of_int (MOS.n self)) a) 1 < 0)%Q ->
             MOS.p_value self a t = Ok 1%Q).
  { intros a Ha. unfold MOS.p_value, MOS.F, math_floor.
    apply Qfloor_negative in Ha. apply Z.ltb_lt in Ha. rewrite Ha.
    reflexivity. }
  split; [| split; [| split]].
  - intros _ _ Hk. apply Hneg. exact Hk.
  - intros Hn Hacc Hbelow. apply Hneg.
    assert (Efn : (float_of_int (MOS.n self) == inject_Z (MOS.n self))%Q).
    { apply round_double_int; [reflexivity | lia]. }
    assert (Hprod : (float_mul (float_of_int (MOS.n self)) acc
                     <= 1 - pow2 (-53))%Q).
    { assert (E : (round_double (1 - pow2 (-53)) == 1 - pow2 (-53))%Q)
        by (vm_compute; reflexivity).
      rewrite <- E. apply round_double_monotone. rewrite Efn. exact Hbelow. }
    assert (Hk : (float_sub (float_mul (float_of_int (MOS.n self)) acc) 1
                  <= - pow2 (-53))%Q).
    { assert (E : (round_double (- pow2 (-53)) == - pow2 (-53))%Q)
        by (vm_compute; reflexivity).
      rewrite <- E. apply round_double_monotone. lra. }
    pose proof (pow2_pos (-53)). lra.
  - intros _. apply Hneg. unfold float_mul.
    rewrite (round_double_zero (float_of_int (MOS.n self) * 0))
      by ring.
    vm_compute. reflexivity.
  - reflexivity.
Qed.

Lemma p_value_one_when_computed_negative_witness :
  MOS.p_value two_coins_strict (1#4) 5 = Ok 1%Q /\
  MOS.p_value two_coins_strict (1#3) 5 = Ok 1%Q /\
  MOS.p_value two_coins_strict 0%Q 5 = Ok 1%Q /\
  MOS.F two_coins_strict (-1)%Q 5 = Ok 0%Q.
Proof.
  split; [| split; [| split]].
  - apply (proj1 (p_value_one_when_computed_negative
                    two_coins_strict (1#4) 5)).
    + split; vm_compute; discriminate.
    + split; vm_compute; discriminate.
    + vm_compute. reflexivity.
  - apply (proj1 (proj2 (p_value_one_when_computed_negative
                           two_coins_strict (1#3) 5))).
    + simpl. lia.
    + discriminate.
    + vm_compute. discriminate.
  - apply (proj1 (proj2 (proj2 (p_value_one_when_computed_negative
                                  two_coins_strict 0%Q 5)))).
    split; vm_compute; discriminate.
  - apply (proj2 (proj2 (proj2 (p_value_one_when_computed_negative
                                  two_coins_strict 0%Q 5)))).
Defined.

(** An accuracy below [1/n] whose product with [n] rounds to [1.0]:
    [3 * 0.3333333333333333] is [1.0] in doubles, so [F] is asked at [0] and
    [p_value] is [1 - cdf(0)], 7/8 on three fair binary examples. *)
Example p_value_just_below_one_third :
  (double_one_third < 1 # 3)%Q /\
  round_double (1 # 3) = double_one_third /\
  (float_mul (float_of_int 3) double_one_third == 1)%Q /\
  returns (MOS.p_value three_coins double_one_third 1) (7 # 8).
Proof.
  split; [reflexivity |]. split; [vm_compute; reflexivity |].
  split; vm_compute; reflexivity.
Qed.

(** ** The distribution function as the running sum of the masses *)

Lemma masses_telescope (c p : Z -> Q) (t : Z) (m : nat) :
  0 < t ->
  (c 0%Z - p 0%Z == 0)%Q ->
  (forall j, 0 < j <= Z.of_nat m -> (c j - p j == c (j - 1)%Z)%Q) ->
  (Qsum (fun j => c j ^ t - (c j - p j) ^ t) m == c (Z.of_nat m) ^ t)%Q.
Proof.
  intros Ht H0 Hstep. induction m as [|m IH].
  - simpl Qsum. simpl Z.of_nat. rewrite H0, Qpower_0 by lia. ring.
  - cbn [Qsum]. rewrite IH by (intros j Hj; apply Hstep; lia).
    rewrite (Hstep (Z.of_nat (S m))) by lia.
    replace (Z.of_nat (S m) - 1) with (Z.of_nat m) by lia.
    ring.
Qed.

Lemma sum_firstn_succ (l : list Q) (i : nat) :
  (fold_right Qplus 0 (firstn (S i) l)
   == fold_right Qplus 0 (firstn i l) + nth i l 0)%Q.
Proof.
  revert l. induction i as [|i IH]; intros [|x l]; simpl; try ring.
  specialize (IH l). simpl in IH. rewrite IH. ring.
Qed.

(** The reference collaborator is such a pair, for every [ps]. *)
Lemma reference_consistent (n : Z) (ps : list Q) (k : Z) :
  consistent_upto (MOS._pb (PoiBinRef.engine n ps))
                  (PoiBinRef.cdf_at ps) (PoiBinRef.pmf_at ps) k.
Proof.
  split; [| split].
  - intros j _. split; reflexivity.
  - unfold PoiBinRef.cdf_at, PoiBinRef.pmf_at. simpl.
    rewrite Qred_correct.
    destruct (PoiBinRef.masses ps) as [|x l]; simpl; ring.
  - intros j Hj. unfold PoiBinRef.cdf_at, PoiBinRef.pmf_at.
    destruct (Z.ltb_spec j 0) as [Hneg | _]; [lia |].
    destruct (Z.ltb_spec (j - 1) 0) as [Hneg | _]; [lia |].
    rewrite !Qred_correct.
    replace (Z.to_nat j + 1)%nat with (S (Z.to_nat j)) by lia.
    replace (Z.to_nat (j - 1) + 1)%nat with (Z.to_nat j) by lia.
    rewrite sum_firstn_succ. ring.
Qed.

(** C6.  Over a collaborator whose [cdf] and [pmf] agree on [0 .. k]
    ([cdf(j) - pmf(j) = cdf(j - 1)], [cdf(-1) = 0]), and for [t > 0], every
    [pmf(j, t)] with [0 <= j <= k] returns, and [F(k, t)] returns their
    sum. *)
Theorem F_is_sum_of_pmf (self : MOS.obj) (t k : Z) (c p : Z -> Q) :
  0 < t ->
  0 <= k <= MOS.n self ->
  consistent_upto (MOS._pb self) c p k ->
  exists w : Z -> Q,
    (forall j, 0 <= j <= k -> MOS.pmf self (inject_Z j) t = Ok (w j)) /\
    returns (MOS.F self (inject_Z k) t) (Qsum w (Z.to_nat k)).
Proof.
  intros Ht Hk (Hans & H0 & Hstep).
  exists (fun j => c j ^ t - (c j - p j) ^ t)%Q. split.
  - intros j Hj. destruct (Hans j Hj) as [Hc Hp].
    unfold MOS.pmf. rewrite math_floor_int, Hc, Hp. reflexivity.
  - unfold MOS.F. rewrite math_floor_int.
    destruct (Z.ltb_spec k 0) as [Hneg | _]; [lia |].
    destruct (Hans k) as [Hc _]; [lia |].
    rewrite Hc. simpl. unfold np_power.
    rewrite masses_telescope.
    + rewrite Z2Nat.id by lia. reflexivity.
    + exact Ht.
    + exact H0.
    + intros j Hj. apply Hstep. lia.
Qed.

Lemma F_is_sum_of_pmf_witness :
  exists w : Z -> Q,
    (forall j, 0 <= j <= 1 -> MOS.pmf two_coins (inject_Z j) 3 = Ok (w j)) /\
    returns (MOS.F two_coins 1 3) (Qsum w 1).
Proof.
  apply (F_is_sum_of_pmf two_coins 3 1
           (PoiBinRef.cdf_at [1#2; 1#2]%Q) (PoiBinRef.pmf_at [1#2; 1#2]%Q)).
  - reflexivity.
  - simpl. lia.
  - apply (reference_consistent 2 [1#2; 1#2]%Q 1).
Defined.

(** ** No classifier at all: [t = 0] *)

Lemma zero_total (xs : list Z) (acc : Q) :
  (acc == 0)%Q ->
  (fold_left (fun total k => total + inject_Z k * 0) xs acc == 0)%Q.
Proof.
  revert acc. induction xs as [|x rest IH]; intros acc Hacc; simpl.
  - exact Hacc.
  - apply IH. rewrite Hacc. ring.
Qed.

Lemma max_min_of_zero (total hi : Q) :
  (total == 0)%Q -> (py_max (py_min total hi) 0 == 0)%Q.
Proof.
  intros Htotal. unfold py_max, py_min.
  destruct (Qltb hi total) eqn:E1.
  - apply Qltb_lt in E1. rewrite Htotal in E1.
    apply Qltb_lt in E1. rewrite E1. reflexivity.
  - destruct (Qltb total 0) eqn:E2; [reflexivity | exact Htotal].
Qed.

(** C10.  With [t = 0] every power is [1]: [pmf(k, 0)] returns [0] and
    [F(k, 0)] returns [1] (for [floor(k) >= 0]) wherever the collaborator
    answers; when it answers on [0 .. n], [expectation(0)] returns [0], and
    so does [max_random_baseline(0)] when [n] is not [0]. *)
Theorem zero_classifiers (self : MOS.obj) :
  (forall (k F_k f_k : Q),
      PoiBin.cdf (MOS._pb self) (Qfloor k) = Ok F_k ->
      PoiBin.pmf (MOS._pb self) (Qfloor k) = Ok f_k ->
      MOS.pmf self k 0 = Ok 0%Q) /\
  (forall (k F_k : Q),
      0 <= Qfloor k ->
      PoiBin.cdf (MOS._pb self) (Qfloor k) = Ok F_k ->
      MOS.F self k 0 = Ok 1%Q) /\
  (answers_upto (MOS._pb self) (MOS.n self) ->
   returns (MOS.expectation self 0) 0 /\
   (MOS.n self <> 0 -> returns (MOS.max_random_baseline self 0) 0)).
Proof.
  assert (Hpmf : forall (k F_k f_k : Q),
             PoiBin.cdf (MOS._pb self) (Qfloor k) = Ok F_k ->
             PoiBin.pmf (MOS._pb self) (Qfloor k) = Ok f_k ->
             MOS.pmf self k 0 = Ok 0%Q).
  { intros k F_k f_k Hc Hp. unfold MOS.pmf, math_floor.
    rewrite Hc, Hp. reflexivity. }
  split; [exact Hpmf | split].
  - intros k F_k Hk Hc. unfold MOS.F, math_floor.
    destruct (Z.ltb_spec (Qfloor k) 0) as [Hneg | _]; [lia |].
    rewrite Hc. reflexivity.
  - intros Hans.
    assert (He : exists e, MOS.expectation self 0 = Ok e /\ (e == 0)%Q).
    { eexists. split.
      - apply (expectation_loop self 0 (fun _ => 0%Q)).
        intros k Hk. destruct (Hans k Hk) as (F_k & f_k & Hc & Hp).
        apply (Hpmf (inject_Z k) F_k f_k); rewrite Qfloor_Z; assumption.
      - apply max_min_of_zero. apply zero_total. reflexivity. }
    destruct He as (e & He & He0). split.
    + rewrite He. exact He0.
    + intros Hn. unfold MOS.max_random_baseline.
      rewrite truediv_nonzero by exact Hn. simpl bind. rewrite He.
      simpl. rewrite He0. ring.
Qed.

Lemma zero_classifiers_witness :
  MOS.pmf two_coins_strict (3#2) 0 = Ok 0%Q /\
  MOS.F two_coins_strict (3#2) 0 = Ok 1%Q /\
  returns (MOS.expectation two_coins_strict 0) 0 /\
  returns (MOS.max_random_baseline two_coins_strict 0) 0.
Proof.
  pose proof (zero_classifiers two_coins_strict) as (Hpmf & HF & Hexp).
  split; [| split].
  - apply (Hpmf (3#2)%Q (3#4)%Q (1#2)%Q); reflexivity.
  - apply (HF (3#2)%Q (3#4)%Q); [discriminate | reflexivity].
  - destruct Hexp as [He Hb].
    + intros j Hj. change (MOS.n two_coins_strict) with 2 in Hj.
      assert (j = 0 \/ j = 1 \/ j = 2) as [-> | [-> | ->]] by lia;
        eexists; eexists; split; reflexivity.
    + split; [exact He | apply Hb; discriminate].
Defined.

(** ** Building the probabilities *)

Lemma len_app {A : Type} (l1 l2 : list A) : len (l1 ++ l2) = len l1 + len l2.
Proof. unfold len. rewrite length_app. lia. Qed.

Lemma len_repeat {A : Type} (x : A) (m : nat) : len (repeat x m) = Z.of_nat m.
Proof. unfold len. rewrite repeat_length. reflexivity. Qed.

Lemma len_copies_per_entry (items : list (Z * Z)) :
  len (copies_per_entry items) = examples_total items.
Proof.
  induction items as [|[num_labels num_examples] rest IH]; [reflexivity |].
  simpl. rewrite len_app, len_repeat, IH. lia.
Qed.

Lemma dict_ps_copies (items : list (Z * Z)) :
  Forall (fun entry => fst entry <> 0) items ->
  MOS.dict_ps items = Ok (copies_per_entry items).
Proof.
  induction 1 as [|[num_labels num_examples] rest Hlabel _ IH];
    [reflexivity |].
  simpl in Hlabel. simpl.
  rewrite truediv_nonzero by exact Hlabel. simpl.
  rewrite IH. simpl. rewrite list_mul_singleton. reflexivity.
Qed.

Lemma dict_ps_returns (items : list (Z * Z)) (ps : list Q) :
  MOS.dict_ps items = Ok ps -> ps = copies_per_entry items.
Proof.
  revert ps.
  induction items as [|[num_labels num_examples] rest IH]; intros ps; simpl.
  - intros [= <-]. reflexivity.
  - unfold truediv. destruct (num_labels =? 0); [discriminate |]. simpl.
    destruct (MOS.dict_ps rest) as [tl |]; [| discriminate]. simpl.
    intros [= <-]. rewrite list_mul_singleton, (IH tl eq_refl).
    reflexivity.
Qed.

Lemma dict_ps_zero_label (items : list (Z * Z)) :
  Exists (fun entry => fst entry = 0) items ->
  MOS.dict_ps items = Raise ZeroDivisionError.
Proof.
  induction items as [|[num_labels num_examples] rest IH]; intros Hex.
  - inversion Hex.
  - simpl. unfold truediv.
    destruct (Z.eqb_spec num_labels 0) as [_ | Hnz]; [reflexivity |]. simpl.
    rewrite IH; [reflexivity |].
    inversion Hex as [? ? H0 | ? ? Hrest]; subst;
      [simpl in H0; contradiction | exact Hrest].
Qed.

(** C9.  Whatever a mapping makes the builder return is [num_examples]
    copies of [1/num_labels] per entry, [n] of them in all; when these copies
    are not [n] in number, the builder and the constructor raise.  When no
    label count is [0], what is raised is [AssertionError], and the copies
    are returned when they are [n] in number. *)
Theorem mapping_copies_or_assertion (n : Z) (items : list (Z * Z)) :
  (forall ps, MOS._convert_arg_to_ps n (Dict items) = Ok ps ->
              ps = copies_per_entry items /\ len ps = n) /\
  (len (copies_per_entry items) <> n ->
   exists e, MOS._convert_arg_to_ps n (Dict items) = Raise e /\
             forall PoiBin_new,
               MOS.__init__ PoiBin_new n (Dict items) = Raise e) /\
  (Forall (fun entry => fst entry <> 0) items ->
   len (copies_per_entry items) = examples_total items /\
   (examples_total items = n ->
    MOS._convert_arg_to_ps n (Dict items) = Ok (copies_per_entry items)) /\
   (examples_total items <> n ->
    MOS._convert_arg_to_ps n (Dict items) = Raise AssertionError /\
    forall PoiBin_new,
      MOS.__init__ PoiBin_new n (Dict items) = Raise AssertionError)).
Proof.
  assert (Hret : forall ps,
             MOS._convert_arg_to_ps n (Dict items) = Ok ps ->
             ps = copies_per_entry items /\ len ps = n).
  { intros ps. simpl.
    destruct (MOS.dict_ps items) as [qs |] eqn:Hqs; [| discriminate].
    simpl. destruct (Z.eqb_spec (len qs) n) as [Hlen | _]; [| discriminate].
    intros [= <-]. split; [apply dict_ps_returns; exact Hqs | exact Hlen]. }
  split; [exact Hret | split].
  - intros Hlen. unfold MOS.__init__.
    destruct (MOS._convert_arg_to_ps n (Dict items)) as [ps | e] eqn:Hps.
    + destruct (Hret ps eq_refl) as [-> Hn]. contradiction.
    + exists e. split; reflexivity.
  - intros Hlabels.
    assert (Hconv : MOS._convert_arg_to_ps n (Dict items)
                    = if examples_total items =? n
                      then Ok (copies_per_entry items)
                      else Raise AssertionError).
    { simpl. rewrite (dict_ps_copies items Hlabels). simpl.
      rewrite len_copies_per_entry. reflexivity. }
    split; [apply len_copies_per_entry | split].
    + intros Hn. rewrite Hconv. apply Z.eqb_eq in Hn. rewrite Hn.
      reflexivity.
    + intros Hn. apply Z.eqb_neq in Hn. split.
      * rewrite Hconv, Hn. reflexivity.
      * intros PoiBin_new. unfold MOS.__init__. rewrite Hconv, Hn.
        reflexivity.
Qed.

Lemma mapping_copies_or_assertion_witness :
  MOS._convert_arg_to_ps 4 (Dict [(2, 2); (5, 2)])
  = Ok [1#2; 1#2; 1#5; 1#5]%Q /\
  MOS._convert_arg_to_ps 5 (Dict [(2, 2); (5, 2)]) = Raise AssertionError.
Proof.
  assert (Hlabels : Forall (fun entry : Z * Z => fst entry <> 0)
                           [(2, 2); (5, 2)]).
  { repeat constructor; discriminate. }
  split.
  - destruct (mapping_copies_or_assertion 4 [(2, 2); (5, 2)])
      as (_ & _ & Hdomain).
    destruct (Hdomain Hlabels) as (_ & Hsame & _).
    apply Hsame. reflexivity.
  - destruct (mapping_copies_or_assertion 5 [(2, 2); (5, 2)])
      as (_ & _ & Hdomain).
    destruct (Hdomain Hlabels) as (_ & _ & Hdiffer).
    apply Hdiffer. discriminate.
Defined.

(** C8.  A scalar [p] is turned into [n] copies of [p] (none when
    [n <= 0]), which is the list [[p] * n]; so the entry point returns the
    same for the scalar as for that list. *)
Theorem scalar_same_as_copies
        (PoiBin_new : list Q -> result PoiBin.obj) (n : Z) (p : Q) (t : Z) :
  MOS._convert_arg_to_ps n (Float p) = Ok (repeat p (Z.to_nat n)) /\
  len (repeat p (Z.to_nat n)) = Z.max 0 n /\
  list_mul [p] n = repeat p (Z.to_nat n) /\
  max_random_baseline PoiBin_new n (Float p) t
  = max_random_baseline PoiBin_new n (List (list_mul [p] n)) t.
Proof.
  split; [| split; [| split]].
  - simpl. rewrite list_mul_singleton. reflexivity.
  - rewrite len_repeat. lia.
  - apply list_mul_singleton.
  - reflexivity.
Qed.

(** C7.  An engine that was constructed holds the [n] it was given and a
    collaborator built from the probabilities of its argument.  These are
    [n] in number for a scalar (with [n >= 0]) and for a mapping; a list is
    passed on as it is, its length unchecked. *)
Theorem ps_length_by_form
        (PoiBin_new : list Q -> result PoiBin.obj)
        (n : Z) (arg : py_arg) (order : MOS.obj) :
  MOS.__init__ PoiBin_new n arg = Ok order ->
  MOS.n order = n /\
  exists ps : list Q,
    MOS._convert_arg_to_ps n arg = Ok ps /\
    PoiBin_new ps = Ok (MOS._pb order) /\
    match arg with
    | Float p => ps = repeat p (Z.to_nat n) /\ (0 <= n -> len ps = n)
    | Dict items => ps = copies_per_entry items /\ len ps = n
    | List l => ps = l /\ (len ps = n <-> len l = n)
    | Other => False
    end.
Proof.
  unfold MOS.__init__. intros Hinit.
  destruct (MOS._convert_arg_to_ps n arg) as [ps |] eqn:Hps;
    [| discriminate].
  simpl in Hinit.
  destruct (PoiBin_new ps) as [pb |] eqn:Hpb; [| discriminate].
  simpl in Hinit. injection Hinit as <-. simpl.
  split; [reflexivity |].
  exists ps. split; [reflexivity | split; [exact Hpb |]].
  destruct arg as [p | items | l |]; simpl in Hps.
  - injection Hps as <-. rewrite list_mul_singleton.
    split; [reflexivity |]. intros Hn. rewrite len_repeat. lia.
  - destruct (MOS.dict_ps items) as [qs |] eqn:Hqs; [| discriminate].
    simpl in Hps.
    destruct (Z.eqb_spec (len qs) n) as [Hlen | _]; [| discriminate].
    injection Hps as <-.
    split; [apply dict_ps_returns; exact Hqs | exact Hlen].
  - injection Hps as <-. split; reflexivity.
  - discriminate.
Qed.

Lemma ps_length_by_form_witness :
  MOS.n two_coins = 2 /\
  exists ps : list Q,
    MOS._convert_arg_to_ps 2 (Dict [(2, 2)]) = Ok ps /\
    PoiBinRef.new ps = Ok (MOS._pb two_coins) /\
    ps = copies_per_entry [(2, 2)] /\ len ps = 2.
Proof.
  apply (ps_length_by_form PoiBinRef.new 2 (Dict [(2, 2)]) two_coins).
  reflexivity.
Defined.

(** ** Boundary cases *)

(** C4.  [p_value] counts ties and lower scores where the proportion
    strictly above [acc] is asked for.  On two fair binary examples and one
    classifier, the chance of an accuracy strictly above 1/2, and strictly
    above 3/4, is that of two right answers, 1/4; [p_value(1/2, 1)] and
    [p_value(3/4, 1)] both return 3/4, the chance of one or two right
    answers. *)
Lemma p_value_counts_ties :
  returns (MOS.p_value two_coins (1#2) 1) (3#4) /\
  (chance_above [1#2; 1#2] 2 (1#2) == 1#4)%Q /\
  returns (MOS.p_value two_coins (3#4) 1) (3#4) /\
  (chance_above [1#2; 1#2] 2 (3#4) == 1#4)%Q /\
  ~ returns (MOS.p_value two_coins (1#2) 1) (chance_above [1#2; 1#2] 2 (1#2)).
Proof.
  split; [vm_compute; reflexivity |].
  split; [vm_compute; reflexivity |].
  split; [vm_compute; reflexivity |].
  split; [vm_compute; reflexivity |].
  vm_compute. discriminate.
Qed.

(** C5 at [acc = 1/n].  There the argument of [F] is [0], not negative:
    [p_value(1/2, 1)] on two fair binary examples is 3/4, not 1. *)
Lemma p_value_at_one_nth_not_one :
  ((1#2) <= 1 / inject_Z (MOS.n two_coins))%Q /\
  returns (MOS.p_value two_coins (1#2) 1) (3#4) /\
  ~ returns (MOS.p_value two_coins (1#2) 1) 1.
Proof.
  split; [discriminate |].
  split; [vm_compute; reflexivity | vm_compute; discriminate].
Qed.

(** C7 for a list.  A list of one probability is accepted for [n = 3]. *)
Lemma list_length_not_checked :
  exists (order : MOS.obj) (ps : list Q),
    MOS.__init__ PoiBinRef.new 3 (List [1#2]%Q) = Ok order /\
    MOS._convert_arg_to_ps 3 (List [1#2]%Q) = Ok ps /\
    MOS.n order = 3 /\
    len ps = 1 /\
    len ps <> MOS.n order.
Proof.
  eexists. eexists.
  split; [reflexivity |]. split; [reflexivity |].
  split; [reflexivity |]. split; [reflexivity |].
  discriminate.
Qed.

(** ** Powers of numbers between 0 and 1 *)

Lemma Qpower_succ (a : Q) (m : nat) :
  (a ^ Z.of_nat (S m) == a ^ Z.of_nat m * a)%Q.
Proof.
  replace (Z.of_nat (S m)) with (Z.of_nat m + 1) by lia.
  rewrite Qpower_plus' by lia. reflexivity.
Qed.

Lemma Qpower_le_base (a b : Q) (t : Z) :
  (0 <= a <= b)%Q -> 0 <= t -> (a ^ t <= b ^ t)%Q.
Proof.
  intros [Ha Hab] Ht. rewrite <- (Z2Nat.id t Ht).
  induction (Z.to_nat t) as [|m IH].
  - apply Qle_refl.
  - rewrite !Qpower_succ. apply Qmult_le_compat_nonneg.
    + split; [apply Qpower_0_le; exact Ha | exact IH].
    + split; assumption.
Qed.

Lemma Qpower_le_one (c : Q) (t : Z) :
  (0 <= c <= 1)%Q -> 0 <= t -> (0 <= c ^ t <= 1)%Q.
Proof.
  intros Hc Ht. split.
  - apply Qpower_0_le. apply Hc.
  - rewrite <- (Qpower_1 t). apply Qpower_le_base; assumption.
Qed.

Lemma Qpower_le_exponent (c : Q) (t t' : Z) :
  (0 <= c <= 1)%Q -> 0 <= t <= t' -> (c ^ t' <= c ^ t)%Q.
Proof.
  intros Hc [Ht Htt'].
  destruct (Z.eq_dec t' 0) as [-> | Hnz].
  - assert (t = 0) as -> by lia. apply Qle_refl.
  - replace t' with (t + (t' - t)) by lia.
    rewrite Qpower_plus' by lia.
    rewrite <- (Qmult_1_r (c ^ t)) at 2.
    apply Qmult_le_compat_nonneg.
    + split; [apply Qpower_0_le; apply Hc | apply Qle_refl].
    + apply Qpower_le_one; [exact Hc | lia].
Qed.

(** ** Monotonicity of the distribution function and of the p-value *)

(** What [F] returns over a collaborator that answers on [0 .. hi]. *)
Lemma F_value (self : MOS.obj) (c : Z -> Q) (hi : Z) (k : Q) (t : Z) :
  cdf_upto (MOS._pb self) c hi ->
  Qfloor k <= hi ->
  MOS.F self k t
  = Ok (if Qfloor k <? 0 then 0%Q else (c (Qfloor k) ^ t)%Q).
Proof.
  intros Hc Hk. unfold MOS.F, math_floor.
  destruct (Z.ltb_spec (Qfloor k) 0) as [_ | Hpos]; [reflexivity |].
  destruct (Hc (Qfloor k)) as [Hans _]; [lia |].
  rewrite Hans. reflexivity.
Qed.

Lemma F_value_bounds (c : Z -> Q) (pb : PoiBin.obj) (hi j : Z) (t : Z) :
  cdf_upto pb c hi -> j <= hi -> 0 <= t ->
  (0 <= (if j <? 0 then 0 else c j ^ t) <= 1)%Q.
Proof.
  intros Hc Hj Ht.
  destruct (Z.ltb_spec j 0) as [_ | Hpos]; [split; discriminate |].
  destruct (Hc j) as (_ & Hrange & _); [lia |].
  apply Qpower_le_one; assumption.
Qed.

Lemma F_value_le (c : Z -> Q) (pb : PoiBin.obj) (hi i j : Z) (t : Z) :
  cdf_upto pb c hi -> i <= j -> j <= hi -> 0 <= t ->
  ((if i <? 0 then 0 else c i ^ t) <= (if j <? 0 then 0 else c j ^ t))%Q.
Proof.
  intros Hc Hij Hj Ht.
  destruct (Z.ltb_spec i 0) as [_ | Hi].
  - apply (F_value_bounds c pb hi j t); assumption.
  - destruct (Z.ltb_spec j 0) as [Hneg | _]; [lia |].
    destruct (Hc j) as (_ & _ & Hmono); [lia |].
    destruct (Hc i) as (_ & [Hi0 _] & _); [lia |].
    apply Qpower_le_base; [split; [exact Hi0 | apply Hmono; lia] | exact Ht].
Qed.

(** X1.  Over a collaborator whose [cdf] is non-decreasing with values in
    [0, 1], [F(k, t)] is non-decreasing in [k] (for [t >= 0]) and lies in
    [0, 1], across the guard at [floor(k) < 0] too. *)
Theorem F_nondecreasing_in_k
        (self : MOS.obj) (c : Z -> Q) (hi : Z) (k k' : Q) (t : Z) :
  cdf_upto (MOS._pb self) c hi ->
  0 <= t ->
  (k <= k')%Q ->
  Qfloor k' <= hi ->
  exists v v' : Q,
    MOS.F self k t = Ok v /\ MOS.F self k' t = Ok v' /\
    (0 <= v)%Q /\ (v <= v')%Q /\ (v' <= 1)%Q.
Proof.
  intros Hc Ht Hkk' Hk'.
  pose proof (Qfloor_resp_le k k' Hkk') as Hfloor.
  eexists. eexists.
  split; [apply (F_value self c hi); [exact Hc | lia] |].
  split; [apply (F_value self c hi); assumption |].
  split; [apply (F_value_bounds c (MOS._pb self) hi); [exact Hc | lia | exact Ht] |].
  split; [apply (F_value_le c (MOS._pb self) hi); assumption |].
  apply (F_value_bounds c (MOS._pb self) hi); assumption.
Qed.

(** X2.  Over such a collaborator, [F(k, t)] does not increase when [t]
    grows: more classifiers make a low best score less likely. *)
Theorem F_nonincreasing_in_t
        (self : MOS.obj) (c : Z -> Q) (hi : Z) (k : Q) (t t' : Z) :
  cdf_upto (MOS._pb self) c hi ->
  Qfloor k <= hi ->
  0 <= t <= t' ->
  exists v v' : Q,
    MOS.F self k t = Ok v /\ MOS.F self k t' = Ok v' /\ (v' <= v)%Q.
Proof.
  intros Hc Hk Htt'.
  eexists. eexists.
  split; [apply (F_value self c hi); assumption |].
  split; [apply (F_value self c hi); assumption |].
  destruct (Z.ltb_spec (Qfloor k) 0) as [_ | Hpos]; [apply Qle_refl |].
  destruct (Hc (Qfloor k)) as (_ & Hrange & _); [lia |].
  apply Qpower_le_exponent; assumption.
Qed.


(** ** Collaborators that are distributions *)

Lemma distribution_step (pb : PoiBin.obj) (c p : Z -> Q) (n j : Z) :
  distribution_upto pb c p n -> 0 < j <= n -> (c (j - 1)%Z <= c j)%Q.
Proof.
  intros ((_ & _ & Hstep) & Hp & _) Hj.
  pose proof (Hstep j Hj) as E. pose proof (Hp j ltac:(lia)) as Hpj. lra.
Qed.

Lemma distribution_monotone (pb : PoiBin.obj) (c p : Z -> Q) (n : Z) (d : nat) :
  distribution_upto pb c p n ->
  forall i, 0 <= i -> i + Z.of_nat d <= n ->
            (c i <= c (i + Z.of_nat d)%Z)%Q.
Proof.
  intros Hd. induction d as [|d IH]; intros i Hi Hn.
  - replace (i + Z.of_nat 0) with i by lia. apply Qle_refl.
  - apply Qle_trans with (c (i + Z.of_nat d)); [apply IH; lia |].
    pose proof (distribution_step pb c p n (i + Z.of_nat (S d)) Hd
                  ltac:(lia)) as Hs.
    replace (i + Z.of_nat (S d) - 1) with (i + Z.of_nat d) in Hs by lia.
    exact Hs.
Qed.

Lemma distribution_cdf_upto (pb : PoiBin.obj) (c p : Z -> Q) (n : Z) :
  distribution_upto pb c p n -> cdf_upto pb c n.
Proof.
  intros Hd j Hj.
  assert (Hmono : forall i k, 0 <= i <= k -> k <= n -> (c i <= c k)%Q).
  { intros i k Hik Hk.
    replace k with (i + Z.of_nat (Z.to_nat (k - i))) by lia.
    apply (distribution_monotone pb c p n _ Hd); lia. }
  destruct Hd as ((Hans & H0 & _) & Hp & Hn).
  split; [apply Hans; exact Hj | split; [split |]].
  - apply Qle_trans with (c 0); [| apply Hmono; lia].
    pose proof (Hp 0 ltac:(lia)). lra.
  - rewrite <- Hn. apply Hmono; lia.
  - intros i Hi. apply Hmono; lia.
Qed.

(** Two fair binary examples: the reference collaborator is the
    distribution of the number of right answers. *)
Lemma two_coins_distribution :
  distribution_upto (MOS._pb two_coins)
                    (PoiBinRef.cdf_at [1#2; 1#2]%Q)
                    (PoiBinRef.pmf_at [1#2; 1#2]%Q) 2.
Proof.
  split; [apply (reference_consistent 2 [1#2; 1#2]%Q 2) | split].
  - intros j Hj.
    assert (j = 0 \/ j = 1 \/ j = 2) as [-> | [-> | ->]] by lia;
      discriminate.
  - reflexivity.
Qed.

Lemma F_nondecreasing_in_k_witness :
  exists v v' : Q,
    MOS.F two_coins (-1#2) 3 = Ok v /\ MOS.F two_coins (3#2) 3 = Ok v' /\
    (0 <= v)%Q /\ (v <= v')%Q /\ (v' <= 1)%Q.
Proof.
  apply (F_nondecreasing_in_k two_coins (PoiBinRef.cdf_at [1#2; 1#2]%Q) 2).
  - apply (distribution_cdf_upto _ _ _ _ two_coins_distribution).
  - discriminate.
  - discriminate.
  - discriminate.
Defined.

Lemma F_nonincreasing_in_t_witness :
  exists v v' : Q,
    MOS.F two_coins (3#2) 2 = Ok v /\ MOS.F two_coins (3#2) 5 = Ok v' /\
    (v' <= v)%Q.
Proof.
  apply (F_nonincreasing_in_t two_coins (PoiBinRef.cdf_at [1#2; 1#2]%Q) 2).
  - apply (distribution_cdf_upto _ _ _ _ two_coins_distribution).
  - discriminate.
  - lia.
Defined.


(** ** The masses of the maximum *)

(** What [pmf] returns over a collaborator that answers at [floor(k)]. *)
Lemma pmf_value (self : MOS.obj) (c p : Z -> Q) (hi : Z) (j : Z) (t : Z) :
  consistent_upto (MOS._pb self) c p hi ->
  0 <= j <= hi ->
  MOS.pmf self (inject_Z j) t = Ok (c j ^ t - (c j - p j) ^ t)%Q.
Proof.
  intros (Hans & _) Hj. destruct (Hans j Hj) as [Hc Hp].
  unfold MOS.pmf. rewrite math_floor_int, Hc, Hp. reflexivity.
Qed.

(** X4.  Over a distribution, [pmf(k, t)] for [0 <= k <= n] and [t >= 0]
    lies in [0, 1]. *)
Theorem pmf_between_zero_and_one
        (self : MOS.obj) (c p : Z -> Q) (k : Z) (t : Z) :
  distribution_upto (MOS._pb self) c p (MOS.n self) ->
  0 <= k <= MOS.n self ->
  0 <= t ->
  exists v : Q,
    MOS.pmf self (inject_Z k) t = Ok v /\ (0 <= v <= 1)%Q.
Proof.
  intros Hd Hk Ht.
  pose proof (distribution_cdf_upto _ _ _ _ Hd) as Hcdf.
  destruct (Hcdf k Hk) as (_ & Hck & _).
  destruct Hd as (Hcons & Hp & _).
  eexists. split; [apply (pmf_value self c p (MOS.n self)); assumption |].
  assert (Hbelow : (0 <= c k - p k <= c k)%Q).
  { pose proof (Hp k Hk) as Hpk. split; [| lra].
    destruct Hcons as (_ & H0 & Hstep).
    destruct (Z.eq_dec k 0) as [-> | Hnz]; [lra |].
    rewrite (Hstep k) by lia.
    destruct (Hcdf (k - 1)) as (_ & [Hlow _] & _); [lia | exact Hlow]. }
  pose proof (Qpower_le_base _ _ t Hbelow Ht) as Hdiff.
  pose proof (Qpower_0_le (c k - p k) t (proj1 Hbelow)) as Hlow.
  pose proof (Qpower_le_one (c k) t Hck Ht) as [_ Hup].
  split; lra.
Qed.

Lemma pmf_between_zero_and_one_witness :
  exists v : Q, MOS.pmf two_coins 1 3 = Ok v /\ (0 <= v <= 1)%Q.
Proof.
  apply (pmf_between_zero_and_one two_coins _ _ 1 3 two_coins_distribution).
  - simpl. lia.
  - discriminate.
Defined.

(** X5.  Over a collaborator whose [cdf] and [pmf] agree, and for [t > 0],
    [pmf(k, t)] is the step of [F] at [k]: [F(k, t) - F(k - 1, t)], where
    [F(-1, t)] is the [0] of the guard. *)
Theorem pmf_is_step_of_F
        (self : MOS.obj) (c p : Z -> Q) (hi : Z) (k : Z) (t : Z) :
  consistent_upto (MOS._pb self) c p hi ->
  0 <= k <= hi ->
  0 < t ->
  exists m above below : Q,
    MOS.pmf self (inject_Z k) t = Ok m /\
    MOS.F self (inject_Z k) t = Ok above /\
    MOS.F self (inject_Z k - 1)%Q t = Ok below /\
    (m == above - below)%Q.
Proof.
  intros Hcons Hk Ht.
  pose proof (pmf_value self c p hi k t Hcons Hk) as Hm.
  destruct Hcons as (Hans & H0 & Hstep).
  exists (c k ^ t - (c k - p k) ^ t)%Q, (c k ^ t)%Q,
         (if k =? 0 then 0%Q else (c (k - 1)%Z ^ t)%Q).
  split; [exact Hm | split; [| split]].
  - unfold MOS.F. rewrite math_floor_int.
    destruct (Z.ltb_spec k 0) as [Hneg | _]; [lia |].
    destruct (Hans k Hk) as [-> _]. reflexivity.
  - unfold MOS.F, math_floor. rewrite Qfloor_minus_one, Qfloor_Z.
    destruct (Z.eqb_spec k 0) as [-> | Hnz]; [reflexivity |].
    destruct (Z.ltb_spec (k - 1) 0) as [Hneg | _]; [lia |].
    destruct (Hans (k - 1)) as [-> _]; [lia |]. reflexivity.
  - destruct (Z.eqb_spec k 0) as [-> | Hnz].
    + rewrite H0, Qpower_0 by lia. reflexivity.
    + rewrite (Hstep k) by lia. reflexivity.
Qed.

Lemma pmf_is_step_of_F_witness :
  exists m above below : Q,
    MOS.pmf two_coins 1 3 = Ok m /\
    MOS.F two_coins 1 3 = Ok above /\
    MOS.F two_coins (1 - 1)%Q 3 = Ok below /\
    (m == above - below)%Q.
Proof.
  apply (pmf_is_step_of_F two_coins
           (PoiBinRef.cdf_at [1#2; 1#2]%Q) (PoiBinRef.pmf_at [1#2; 1#2]%Q)
           2 1 3).
  - apply (reference_consistent 2 [1#2; 1#2]%Q 2).
  - lia.
  - reflexivity.
Defined.

(** X6.  Over a collaborator whose [cdf] and [pmf] agree and whose [cdf] is
    [1] at [n], and for [t > 0], the masses [pmf(0, t) .. pmf(n, t)] add up
    to [1]. *)
Theorem pmf_sums_to_one (self : MOS.obj) (c p : Z -> Q) (t : Z) :
  consistent_upto (MOS._pb self) c p (MOS.n self) ->
  (c (MOS.n self) == 1)%Q ->
  0 <= MOS.n self ->
  0 < t ->
  exists w : Z -> Q,
    (forall j, 0 <= j <= MOS.n self ->
               MOS.pmf self (inject_Z j) t = Ok (w j)) /\
    (Qsum w (Z.to_nat (MOS.n self)) == 1)%Q.
Proof.
  intros Hcons Hone Hn Ht.
  exists (fun j => c j ^ t - (c j - p j) ^ t)%Q. split.
  - intros j Hj. apply (pmf_value self c p (MOS.n self)); assumption.
  - destruct Hcons as (_ & H0 & Hstep).
    rewrite masses_telescope.
    + rewrite Z2Nat.id by lia. rewrite Hone. apply Qpower_1.
    + exact Ht.
    + exact H0.
    + intros j Hj. apply Hstep. lia.
Qed.

Lemma pmf_sums_to_one_witness :
  exists w : Z -> Q,
    (forall j, 0 <= j <= 2 -> MOS.pmf two_coins (inject_Z j) 3 = Ok (w j)) /\
    (Qsum w 2 == 1)%Q.
Proof.
  apply (pmf_sums_to_one two_coins
           (PoiBinRef.cdf_at [1#2; 1#2]%Q) (PoiBinRef.pmf_at [1#2; 1#2]%Q) 3).
  - apply (reference_consistent 2 [1#2; 1#2]%Q 2).
  - reflexivity.
  - discriminate.
  - reflexivity.
Defined.

(** X7.  With one classifier the engine is the collaborator: [F(k, 1)]
    returns [cdf(floor(k))] for [floor(k) >= 0], and [pmf(k, 1)] returns
    [pmf(floor(k))]. *)
Theorem one_classifier_is_collaborator (self : MOS.obj) (k F_k f_k : Q) :
  PoiBin.cdf (MOS._pb self) (Qfloor k) = Ok F_k ->
  PoiBin.pmf (MOS._pb self) (Qfloor k) = Ok f_k ->
  (0 <= Qfloor k -> MOS.F self k 1 = Ok F_k) /\
  returns (MOS.pmf self k 1) f_k.
Proof.
  intros Hc Hp. split.
  - intros Hk. unfold MOS.F, math_floor.
    destruct (Z.ltb_spec (Qfloor k) 0) as [Hneg | _]; [lia |].
    rewrite Hc. reflexivity.
  - unfold MOS.pmf, math_floor. rewrite Hc, Hp.
    unfold bind, returns, np_power. rewrite !Qpower_1_r. ring.
Qed.

Lemma one_classifier_is_collaborator_witness :
  MOS.F two_coins (3#2) 1 = Ok (3#4)%Q /\
  returns (MOS.pmf two_coins (3#2) 1) (1#2).
Proof.
  destruct (one_classifier_is_collaborator two_coins (3#2) (3#4) (1#2))
    as [HF Hpmf]; [reflexivity | reflexivity |].
  split; [apply HF; discriminate | exact Hpmf].
Defined.

(** X8.  Over a collaborator whose [cdf] and [pmf] agree and whose [cdf] is
    [1] at [n], with [1 <= n < 2^53], [p_value(1, t)] is [pmf(n, t)]: the
    chance that the best of the [t] classifiers gets every example right. *)
Theorem p_value_of_one_is_top_mass
        (self : MOS.obj) (c p : Z -> Q) (t : Z) :
  consistent_upto (MOS._pb self) c p (MOS.n self) ->
  (c (MOS.n self) == 1)%Q ->
  1 <= MOS.n self < 2 ^ 53 ->
  exists v m : Q,
    MOS.p_value self 1 t = Ok v /\
    MOS.pmf self (inject_Z (MOS.n self)) t = Ok m /\
    (v == m)%Q.
Proof.
  intros Hcons Hone Hn.
  pose proof (pmf_value self c p (MOS.n self) (MOS.n self) t Hcons
                ltac:(lia)) as Hm.
  destruct Hcons as (Hans & _ & Hstep).
  exists (1 - c (MOS.n self - 1)%Z ^ t)%Q. eexists.
  split; [| split; [exact Hm |]].
  - unfold MOS.p_value, MOS.F, math_floor.
    rewrite (Qfloor_of_int _ _ (count_minus_one_at_one (MOS.n self) Hn)).
    destruct (Z.ltb_spec (MOS.n self - 1) 0) as [Hneg | _]; [lia |].
    destruct (Hans (MOS.n self - 1)) as [-> _]; [lia |]. reflexivity.
  - rewrite (Hstep (MOS.n self)) by lia. rewrite Hone, Qpower_1.
    reflexivity.
Qed.

Lemma p_value_of_one_is_top_mass_witness :
  exists v m : Q,
    MOS.p_value two_coins 1 3 = Ok v /\
    MOS.pmf two_coins 2 3 = Ok m /\
    (v == m)%Q.
Proof.
  apply (p_value_of_one_is_top_mass two_coins
           (PoiBinRef.cdf_at [1#2; 1#2]%Q) (PoiBinRef.pmf_at [1#2; 1#2]%Q) 3).
  - apply (reference_consistent 2 [1#2; 1#2]%Q 2).
  - reflexivity.
  - simpl. lia.
Defined.

(** ** Sums *)

Lemma Qsum_ext (f g : Z -> Q) (m : nat) :
  (forall k, 0 <= k <= Z.of_nat m -> (f k == g k)%Q) ->
  (Qsum f m == Qsum g m)%Q.
Proof.
  induction m as [|m IH]; intros Hfg; cbn [Qsum].
  - apply Hfg. lia.
  - rewrite IH by (intros k Hk; apply Hfg; lia).
    rewrite (Hfg (Z.of_nat (S m))) by lia. reflexivity.
Qed.

Lemma Qsum_le (f g : Z -> Q) (m : nat) :
  (forall k, 0 <= k <= Z.of_nat m -> (f k <= g k)%Q) ->
  (Qsum f m <= Qsum g m)%Q.
Proof.
  induction m as [|m IH]; intros Hfg; cbn [Qsum].
  - apply Hfg. lia.
  - apply Qplus_le_compat; [apply IH; intros k Hk; apply Hfg; lia |].
    apply Hfg. lia.
Qed.

Lemma Qsum_between (f : Z -> Q) (m : nat) :
  (forall k, 0 <= k <= Z.of_nat m -> (0 <= f k <= 1)%Q) ->
  (0 <= Qsum f m <= inject_Z (Z.of_nat m + 1))%Q.
Proof.
  induction m as [|m IH]; intros Hf; cbn [Qsum].
  - apply (Hf 0). lia.
  - destruct IH as [IHlow IHup]; [intros k Hk; apply Hf; lia |].
    destruct (Hf (Z.of_nat (S m))) as [Hlow Hup]; [lia |].
    replace (Z.of_nat (S m) + 1) with ((Z.of_nat m + 1) + 1) by lia.
    rewrite (inject_Z_plus (Z.of_nat m + 1) 1).
    change (inject_Z 1) with 1%Q. split; lra.
Qed.

Lemma Qsum_last_zero (f : Z -> Q) (m : nat) :
  (forall k, 0 <= k <= Z.of_nat m -> (0 <= f k <= 1)%Q) ->
  (f (Z.of_nat m) == 0)%Q ->
  (0 <= Qsum f m <= inject_Z (Z.of_nat m))%Q.
Proof.
  destruct m as [|m]; intros Hf Hlast; cbn [Qsum].
  - simpl in Hlast. rewrite Hlast. split; discriminate.
  - destruct (Qsum_between f m) as [Hlow Hup];
      [intros k Hk; apply Hf; lia |].
    rewrite Hlast.
    replace (Z.of_nat (S m)) with (Z.of_nat m + 1) by lia.
    split; lra.
Qed.

Lemma Qsum_complement (g : Z -> Q) (m : nat) :
  (Qsum (fun k => 1 - g k) m == inject_Z (Z.of_nat m + 1) - Qsum g m)%Q.
Proof.
  induction m as [|m IH]; cbn [Qsum].
  - simpl. ring.
  - rewrite IH.
    replace (Z.of_nat (S m) + 1) with ((Z.of_nat m + 1) + 1) by lia.
    rewrite (inject_Z_plus (Z.of_nat m + 1) 1).
    change (inject_Z 1) with 1%Q. ring.
Qed.

(** Summation by parts: when [w] is the sequence of steps of [g], the sum
    of [k * w k] and the sum of [g k] over [0 .. m] make [(m + 1) * g m]. *)
Lemma weighted_steps (g w : Z -> Q) (m : nat) :
  (w 0%Z == g 0%Z)%Q ->
  (forall k, 0 < k <= Z.of_nat m -> (w k == g k - g (k - 1)%Z)%Q) ->
  (Qsum (fun k => inject_Z k * w k) m + Qsum g m
   == inject_Z (Z.of_nat m + 1) * g (Z.of_nat m))%Q.
Proof.
  intros H0 Hstep. induction m as [|m IH]; cbn [Qsum].
  - simpl. ring.
  - assert (IH' := IH ltac:(intros k Hk; apply Hstep; lia)).
    rewrite (Hstep (Z.of_nat (S m))) by lia.
    replace (Z.of_nat (S m) - 1) with (Z.of_nat m) by lia.
    replace (Z.of_nat (S m) + 1) with ((Z.of_nat m + 1) + 1) by lia.
    replace (Z.of_nat (S m)) with (Z.of_nat m + 1) by lia.
    rewrite !inject_Z_plus. rewrite inject_Z_plus in IH'.
    change (inject_Z 1) with 1%Q in *.
    set (A := Qsum (fun k => (inject_Z k * w k)%Q) m) in *.
    set (B := Qsum g m) in *.
    set (gm := g (Z.of_nat m)) in *.
    set (gs := g (Z.of_nat m + 1)) in *.
    set (q := inject_Z (Z.of_nat m)) in *.
    clearbody A B gm gs q.
    assert (E : (A == (q + 1) * gm - B)%Q) by lra.
    rewrite E. ring.
Qed.

Lemma clamp_inside (lo hi x : Q) :
  (lo <= x <= hi)%Q -> clamp lo hi x = x.
Proof.
  intros [Hlo Hhi]. unfold clamp.
  destruct (Qlt_le_dec x lo) as [H | _];
    [exfalso; apply (Qlt_not_le _ _ H Hlo) |].
  destruct (Qlt_le_dec hi x) as [H | _];
    [exfalso; apply (Qlt_not_le _ _ H Hhi) | reflexivity].
Qed.

(** ** The expectation over a distribution *)

(** Over a distribution the clamp of [expectation] does nothing, and the
    total is the sum of the chances [1 - cdf(k)^t] of exceeding each [k]. *)
Lemma expectation_value (self : MOS.obj) (c p : Z -> Q) (t : Z) :
  distribution_upto (MOS._pb self) c p (MOS.n self) ->
  0 <= MOS.n self ->
  0 < t ->
  exists e : Q,
    MOS.expectation self t = Ok e /\
    (e == Qsum (fun k => inject_Z k * (c k ^ t - (c k - p k) ^ t))
               (Z.to_nat (MOS.n self)))%Q /\
    (e == Qsum (fun k => 1 - c k ^ t) (Z.to_nat (MOS.n self)))%Q.
Proof.
  intros Hd Hn Ht.
  pose proof (distribution_cdf_upto _ _ _ _ Hd) as Hcdf.
  destruct Hd as (Hcons & Hp & Hone).
  set (w := (fun k => c k ^ t - (c k - p k) ^ t)%Q).
  set (m := Z.to_nat (MOS.n self)).
  assert (Hm : Z.of_nat m = MOS.n self) by (unfold m; lia).
  assert (Htail : (Qsum (fun k => inject_Z k * w k) m
                   == Qsum (fun k => 1 - c k ^ t) m)%Q).
  { pose proof (weighted_steps (fun k => c k ^ t)%Q w m) as Hparts.
    destruct Hcons as (_ & H0 & Hstep).
    assert (Hsum := Hparts
      ltac:(unfold w; rewrite H0, Qpower_0 by lia; ring)
      ltac:(intros k Hk; unfold w; rewrite (Hstep k) by lia; reflexivity)).
    simpl in Hsum.
    rewrite Qsum_complement, Hm in *. rewrite Hone, Qpower_1 in Hsum.
    lra. }
  assert (Hrange : (0 <= Qsum (fun k => 1 - c k ^ t) m
                    <= inject_Z (MOS.n self))%Q).
  { rewrite <- Hm. apply Qsum_last_zero.
    - intros k Hk. destruct (Hcdf k) as (_ & Hck & _); [lia |].
      pose proof (Qpower_le_one (c k) t Hck ltac:(lia)). lra.
    - rewrite Hm, Hone, Qpower_1. ring. }
  pose proof (expectation_loop self t w
                ltac:(intros k Hk;
                      apply (pmf_value self c p (MOS.n self) k t Hcons Hk)))
    as He.
  pose proof (running_total_is_Qsum w m) as Htotal.
  rewrite Hm in Htotal.
  eexists. split; [exact He |].
  assert (Hclamp :
            (py_max
               (py_min
                  (fold_left (fun total k => total + inject_Z k * w k)
                             (range (MOS.n self + 1)) 0)
                  (inject_Z (MOS.n self))) 0
             == Qsum (fun k => inject_Z k * w k) m)%Q).
  { rewrite max_min_is_clamp
      by (change 0%Q with (inject_Z 0); rewrite <- Zle_Qle; exact Hn).
    rewrite clamp_inside; [exact Htotal |].
    rewrite Htotal, Htail. exact Hrange. }
  split; [exact Hclamp | rewrite Hclamp; exact Htail].
Qed.

(** X9.  Over a distribution on [0 .. n] and for [t > 0], the clamp in
    [expectation(t)] does nothing: what is returned is the sum of
    [k * pmf(k, t)] itself, and it equals the sum over [k = 0 .. n] of
    [1 - cdf(k)^t], the chances that the best classifier gets more than [k]
    right. *)
Theorem expectation_is_unclamped_tail_sum
        (self : MOS.obj) (c p : Z -> Q) (t : Z) :
  distribution_upto (MOS._pb self) c p (MOS.n self) ->
  0 <= MOS.n self ->
  0 < t ->
  exists (e : Q) (w : Z -> Q),
    (forall k, 0 <= k <= MOS.n self ->
               MOS.pmf self (inject_Z k) t = Ok (w k)) /\
    MOS.expectation self t = Ok e /\
    (e == Qsum (fun k => inject_Z k * w k) (Z.to_nat (MOS.n self)))%Q /\
    (e == Qsum (fun k => 1 - c k ^ t) (Z.to_nat (MOS.n self)))%Q.
Proof.
  intros Hd Hn Ht.
  destruct (expectation_value self c p t Hd Hn Ht) as (e & He & Hsum & Htail).
  exists e, (fun k => c k ^ t - (c k - p k) ^ t)%Q.
  split; [| split; [exact He | split; [exact Hsum | exact Htail]]].
  intros k Hk. apply (pmf_value self c p (MOS.n self)); [apply Hd | exact Hk].
Qed.

Lemma expectation_is_unclamped_tail_sum_witness :
  exists (e : Q) (w : Z -> Q),
    (forall k, 0 <= k <= 2 -> MOS.pmf two_coins (inject_Z k) 2 = Ok (w k)) /\
    MOS.expectation two_coins 2 = Ok e /\
    (e == Qsum (fun k => inject_Z k * w k) 2)%Q /\
    (e == Qsum (fun k => 1 - PoiBinRef.cdf_at [1#2; 1#2] k ^ 2) 2)%Q.
Proof.
  apply (expectation_is_unclamped_tail_sum
           two_coins _ _ 2 two_coins_distribution).
  - discriminate.
  - reflexivity.
Defined.

(** X10.  Over a distribution on [0 .. n] with [n > 0], neither
    [expectation(t)] nor [max_random_baseline(t)] decreases when [t > 0]
    grows: trying more random classifiers never lowers the baseline. *)
Theorem baseline_nondecreasing_in_t
        (self : MOS.obj) (c p : Z -> Q) (t t' : Z) :
  distribution_upto (MOS._pb self) c p (MOS.n self) ->
  0 < MOS.n self ->
  0 < t <= t' ->
  exists e e' b b' : Q,
    MOS.expectation self t = Ok e /\
    MOS.expectation self t' = Ok e' /\
    MOS.max_random_baseline self t = Ok b /\
    MOS.max_random_baseline self t' = Ok b' /\
    (e <= e')%Q /\ (b <= b')%Q.
Proof.
  intros Hd Hn Htt'.
  destruct (expectation_value self c p t Hd ltac:(lia) ltac:(lia))
    as (e & He & _ & Htail).
  destruct (expectation_value self c p t' Hd ltac:(lia) ltac:(lia))
    as (e' & He' & _ & Htail').
  assert (Hee' : (e <= e')%Q).
  { rewrite Htail, Htail'. apply Qsum_le. intros k Hk.
    destruct (distribution_cdf_upto _ _ _ _ Hd k) as (_ & Hck & _); [lia |].
    pose proof (Qpower_le_exponent (c k) t t' Hck ltac:(lia)). lra. }
  exists e, e', (inject_Z 1 / inject_Z (MOS.n self) * e)%Q,
         (inject_Z 1 / inject_Z (MOS.n self) * e')%Q.
  split; [exact He | split; [exact He' |]].
  unfold MOS.max_random_baseline.
  rewrite truediv_nonzero by lia. rewrite He, He'.
  split; [reflexivity | split; [reflexivity | split; [exact Hee' |]]].
  apply Qmult_le_l; [| exact Hee'].
  apply Qlt_shift_div_l.
  - change 0%Q with (inject_Z 0). rewrite <- Zlt_Qlt. exact Hn.
  - rewrite Qmult_0_l. reflexivity.
Qed.

Lemma baseline_nondecreasing_in_t_witness :
  exists e e' b b' : Q,
    MOS.expectation two_coins 1 = Ok e /\
    MOS.expectation two_coins 4 = Ok e' /\
    MOS.max_random_baseline two_coins 1 = Ok b /\
    MOS.max_random_baseline two_coins 4 = Ok b' /\
    (e <= e')%Q /\ (b <= b')%Q.
Proof.
  apply (baseline_nondecreasing_in_t two_coins _ _ 1 4 two_coins_distribution).
  - reflexivity.
  - lia.
Defined.



(** ** Degenerate sizes and failing collaborators *)

Lemma range_nonpositive (stop : Z) : stop <= 0 -> range stop = [].
Proof.
  intros H. unfold range.
  replace (Z.to_nat stop) with 0%nat by lia. reflexivity.
Qed.

Lemma range_split (k stop : Z) :
  0 <= k < stop -> exists rest, range stop = range k ++ k :: rest.
Proof.
  intros Hk. unfold range.
  replace (Z.to_nat stop)
    with (Z.to_nat k + S (Z.to_nat stop - S (Z.to_nat k)))%nat by lia.
  rewrite seq_app, map_app. simpl.
  rewrite Z2Nat.id by lia. eexists. reflexivity.
Qed.

Lemma for_each_first_raise {A St : Type} (body : St -> A -> result St)
      (xs : list A) (x : A) (ys : list A) (e : exn) :
  (forall y, In y xs -> forall acc, exists acc', body acc y = Ok acc') ->
  (forall acc, body acc x = Raise e) ->
  forall acc, for_each body (xs ++ x :: ys) acc = Raise e.
Proof.
  intros Hxs Hx. induction xs as [|y xs IH]; intros acc; simpl.
  - rewrite Hx. reflexivity.
  - destruct (Hxs y (or_introl eq_refl) acc) as [acc' ->]. simpl.
    apply IH. intros z Hz. apply Hxs. right. exact Hz.
Qed.

(** X12.  With a negative [n] the loop of [expectation] runs over nothing
    and the collaborator is never asked: [expectation(t)] returns [0], and
    [max_random_baseline(t)] returns a number equal to [0]. *)
Theorem negative_size_gives_zero (self : MOS.obj) (t : Z) :
  MOS.n self < 0 ->
  MOS.expectation self t = Ok 0%Q /\
  returns (MOS.max_random_baseline self t) 0.
Proof.
  intros Hn.
  assert (Hnq : Qltb (inject_Z (MOS.n self)) 0 = true).
  { apply Qltb_lt. change 0%Q with (inject_Z 0). rewrite <- Zlt_Qlt.
    exact Hn. }
  assert (He : MOS.expectation self t = Ok 0%Q).
  { unfold MOS.expectation. rewrite range_nonpositive by lia.
    unfold for_each, bind, py_min, py_max. rewrite Hnq, Hnq. reflexivity. }
  split; [exact He |].
  unfold MOS.max_random_baseline.
  rewrite truediv_nonzero by lia. rewrite He.
  unfold bind, returns. ring.
Qed.

Lemma negative_size_gives_zero_witness :
  MOS.expectation {| MOS.n := -3; MOS._pb := strict_PoiBin [] |} 2 = Ok 0%Q /\
  returns
    (MOS.max_random_baseline {| MOS.n := -3; MOS._pb := strict_PoiBin [] |} 2)
    0.
Proof.
  apply (negative_size_gives_zero
           {| MOS.n := -3; MOS._pb := strict_PoiBin [] |} 2).
  reflexivity.
Defined.

(** X13.  When [pmf(k, t)] raises for some [k] in [0 .. n] and returns for
    every smaller count, [expectation(t)] raises the same exception; so does
    [max_random_baseline(t)], unless [n = 0], where [1/n] raises first. *)
Theorem expectation_raises_first_failure
        (self : MOS.obj) (t k : Z) (e : exn) :
  0 <= k <= MOS.n self ->
  (forall j, 0 <= j < k -> exists v, MOS.pmf self (inject_Z j) t = Ok v) ->
  MOS.pmf self (inject_Z k) t = Raise e ->
  MOS.expectation self t = Raise e /\
  MOS.max_random_baseline self t
  = Raise (if MOS.n self =? 0 then ZeroDivisionError else e).
Proof.
  intros Hk Hbefore Hat.
  assert (He : MOS.expectation self t = Raise e).
  { unfold MOS.expectation.
    destruct (range_split k (MOS.n self + 1)) as [rest ->]; [lia |].
    rewrite for_each_first_raise with (e := e); [reflexivity | |].
    - intros j Hj acc. apply in_range in Hj.
      destruct (Hbefore j Hj) as [v ->]. eexists. reflexivity.
    - intros acc. rewrite Hat. reflexivity. }
  split; [exact He |].
  unfold MOS.max_random_baseline, truediv.
  destruct (MOS.n self =? 0); [reflexivity |].
  simpl. rewrite He. reflexivity.
Qed.

Lemma expectation_raises_first_failure_witness :
  MOS.expectation two_probabilities_for_three 2 = Raise PoiBinError /\
  MOS.max_random_baseline two_probabilities_for_three 2 = Raise PoiBinError.
Proof.
  apply (expectation_raises_first_failure
           two_probabilities_for_three 2 3 PoiBinError).
  - simpl. lia.
  - intros j Hj.
    assert (j = 0 \/ j = 1 \/ j = 2) as [-> | [-> | ->]] by lia;
      eexists; reflexivity.
  - reflexivity.
Defined.

(** ** Mappings *)

Lemma labels_cases (items : list (Z * Z)) :
  Forall (fun entry => fst entry <> 0) items \/
  Exists (fun entry => fst entry = 0) items.
Proof.
  induction items as [|[num_labels num_examples] rest [IH | IH]].
  - left. constructor.
  - destruct (Z.eq_dec num_labels 0) as [-> | Hnz].
    + right. left. reflexivity.
    + left. constructor; assumption.
  - right. right. exact IH.
Qed.

(** X14.  A mapping with a label count of [0] makes the builder raise
    [ZeroDivisionError], whatever [n] and the example counts (an entry with
    no example included); the constructor and the entry points raise it
    too, and the collaborator is not built. *)
Theorem zero_label_raises_zero_division
        (PoiBin_new : list Q -> result PoiBin.obj)
        (n : Z) (items : list (Z * Z)) (t : Z) (x : Q) :
  Exists (fun entry => fst entry = 0) items ->
  MOS._convert_arg_to_ps n (Dict items) = Raise ZeroDivisionError /\
  MOS.__init__ PoiBin_new n (Dict items) = Raise ZeroDivisionError /\
  max_random_baseline PoiBin_new n (Dict items) t = Raise ZeroDivisionError /\
  max_random_p_value PoiBin_new x n (Dict items) t = Raise ZeroDivisionError /\
  max_random_F PoiBin_new x n (Dict items) t = Raise ZeroDivisionError /\
  max_random_pmf PoiBin_new x n (Dict items) t = Raise ZeroDivisionError.
Proof.
  intros Hzero.
  assert (Hconv : MOS._convert_arg_to_ps n (Dict items)
                  = Raise ZeroDivisionError).
  { simpl. rewrite (dict_ps_zero_label items Hzero). reflexivity. }
  assert (Hinit : MOS.__init__ PoiBin_new n (Dict items)
                  = Raise ZeroDivisionError).
  { unfold MOS.__init__. rewrite Hconv. reflexivity. }
  unfold max_random_baseline, max_random_p_value, max_random_F,
    max_random_pmf.
  rewrite Hinit. repeat split; reflexivity || exact Hconv.
Qed.

Lemma zero_label_raises_zero_division_witness :
  MOS._convert_arg_to_ps 2 (Dict [(2, 2); (0, 0)]) = Raise ZeroDivisionError /\
  max_random_baseline PoiBinRef.new 2 (Dict [(2, 2); (0, 0)]) 3
  = Raise ZeroDivisionError.
Proof.
  destruct (zero_label_raises_zero_division
              PoiBinRef.new 2 [(2, 2); (0, 0)] 3 0%Q)
    as (Hconv & _ & Hbase & _).
  - right. left. reflexivity.
  - split; [exact Hconv | exact Hbase].
Defined.

(** X15.  A mapping with no label count of [0] and whose example counts
    add up to [n] gives every entry point the same result as the list of
    its copies does (the module's documentation gives [{2: 50, 5: 50}] and
    [[0.5] * 50 + [0.2] * 50] as the same). *)
Theorem mapping_same_as_its_copies
        (PoiBin_new : list Q -> result PoiBin.obj)
        (n : Z) (items : list (Z * Z)) (t : Z) (x : Q) :
  Forall (fun entry => fst entry <> 0) items ->
  examples_total items = n ->
  max_random_baseline PoiBin_new n (Dict items) t
  = max_random_baseline PoiBin_new n (List (copies_per_entry items)) t /\
  max_random_p_value PoiBin_new x n (Dict items) t
  = max_random_p_value PoiBin_new x n (List (copies_per_entry items)) t /\
  max_random_F PoiBin_new x n (Dict items) t
  = max_random_F PoiBin_new x n (List (copies_per_entry items)) t /\
  max_random_pmf PoiBin_new x n (Dict items) t
  = max_random_pmf PoiBin_new x n (List (copies_per_entry items)) t.
Proof.
  intros Hlabels Hn.
  assert (Hinit : MOS.__init__ PoiBin_new n (Dict items)
                  = MOS.__init__ PoiBin_new n (List (copies_per_entry items))).
  { unfold MOS.__init__. simpl.
    rewrite (dict_ps_copies items Hlabels). simpl.
    rewrite len_copies_per_entry. apply Z.eqb_eq in Hn. rewrite Hn.
    reflexivity. }
  unfold max_random_baseline, max_random_p_value, max_random_F,
    max_random_pmf.
  rewrite Hinit. repeat split; reflexivity.
Qed.

Lemma mapping_same_as_its_copies_witness :
  max_random_baseline PoiBinRef.new 4 (Dict [(2, 2); (5, 2)]) 3
  = max_random_baseline PoiBinRef.new 4
      (List (list_mul [1#2]%Q 2 ++ list_mul [1#5]%Q 2)) 3.
Proof.
  apply (mapping_same_as_its_copies PoiBinRef.new 4 [(2, 2); (5, 2)] 3 0%Q).
  - repeat constructor; discriminate.
  - reflexivity.
Defined.

(** X16.  The order in which a mapping's entries are visited does not
    matter to the builder: over two orders of the same entries it raises
    the same exception, or returns lists that are permutations of each
    other. *)
Theorem mapping_order_irrelevant (n : Z) (items items' : list (Z * Z)) :
  Permutation items items' ->
  match MOS._convert_arg_to_ps n (Dict items),
        MOS._convert_arg_to_ps n (Dict items') with
  | Ok ps, Ok ps' => Permutation ps ps'
  | Raise e, Raise e' => e = e'
  | _, _ => False
  end.
Proof.
  intros Hperm.
  destruct (labels_cases items) as [Hlabels | Hzero].
  - assert (Hlabels' : Forall (fun entry => fst entry <> 0) items').
    { rewrite <- Hperm. exact Hlabels. }
    assert (Hcopies : Permutation (copies_per_entry items)
                                  (copies_per_entry items')).
    { unfold copies_per_entry. apply Permutation_flat_map. exact Hperm. }
    simpl.
    rewrite (dict_ps_copies items Hlabels), (dict_ps_copies items' Hlabels').
    simpl. unfold len. rewrite <- (Permutation_length Hcopies).
    destruct (Z.of_nat (length (copies_per_entry items)) =? n);
      [exact Hcopies | reflexivity].
  - assert (Hzero' : Exists (fun entry => fst entry = 0) items').
    { rewrite <- Hperm. exact Hzero. }
    simpl.
    rewrite (dict_ps_zero_label items Hzero),
      (dict_ps_zero_label items' Hzero').
    reflexivity.
Qed.

Lemma mapping_order_irrelevant_witness :
  Permutation [1#2; 1#2; 1#5; 1#5]%Q [1#5; 1#5; 1#2; 1#2]%Q.
Proof.
  exact (mapping_order_irrelevant 4 [(2, 2); (5, 2)] [(5, 2); (2, 2)]
           (perm_swap (5, 2) (2, 2) [])).
Defined.

(** ** Further consequences *)

(** X18.  Over a distribution on [0 .. n], [expectation(1)] is the mean of
    the collaborator: the sum of [k * pmf(k)] over [k = 0 .. n]. *)
Theorem expectation_of_one_classifier_is_mean
        (self : MOS.obj) (c p : Z -> Q) :
  distribution_upto (MOS._pb self) c p (MOS.n self) ->
  0 <= MOS.n self ->
  returns (MOS.expectation self 1)
          (Qsum (fun k => (inject_Z k * p k)%Q) (Z.to_nat (MOS.n self))).
Proof.
  intros Hd Hn.
  destruct (expectation_value self c p 1 Hd Hn ltac:(lia))
    as (e & He & Hsum & _).
  rewrite He. unfold returns. rewrite Hsum.
  apply Qsum_ext. intros k _. rewrite !Qpower_1_r. ring.
Qed.

Lemma expectation_of_one_classifier_is_mean_witness :
  returns (MOS.expectation two_coins 1)
          (Qsum (fun k => (inject_Z k * PoiBinRef.pmf_at [1#2; 1#2] k)%Q) 2).
Proof.
  apply (expectation_of_one_classifier_is_mean
           two_coins _ _ two_coins_distribution).
  discriminate.
Defined.
